(** * benchmark-fft: the recursive radix-2 transform and its complex arithmetic

    A shallow embedding of the Go port (fft/complex.go, fft/cooley_tukey.go and
    the command-line harness) and of the Swift port, followed by the
    properties the design document states about them.

    - A [float64] and a [Double] are the kernel's binary64 floats: IEEE 754
      arithmetic, rounded to nearest even operation by operation (no fused
      multiply-add), with a single NaN.
    - A slice or array is a list; reading or writing an index out of range
      panics (traps).  The slices [a0] and [a1] of a call are fresh, so a call
      is a function from the content of [arr] at entry to its content at
      return.
    - Lengths and loop counters are natural numbers: no length reaches the
      range where a 64-bit int would wrap.  The shift in [main], which can,
      is written with its wrap-around.
    - The recursion of the transform is bounded by an explicit depth; a call
      that needs more than any depth is one that never returns.
    - Memory does not run out: an allocation fails only where [make] refuses
      the capacity, above a limit of the Go runtime that is a parameter here.
    - [math.Cos], [math.Sin], [math.Round], [strconv.Atoi] and their Swift
      counterparts are library code and parameters here. *)

From Stdlib Require Import Floats ZArith Lia Bool Ascii String.
From stdpp Require Import base list.

Local Open Scope nat_scope.

(** ** Results of running a piece of code

    A call either returns, stops with a run-time panic (index out of range,
    [makeslice] with a bad capacity), or is still recursing when the fuel that
    bounds the depth of the call stack is used up. *)

Inductive outcome (A : Type) : Type :=
| Done (a : A)
| Panic
| OutOfFuel.

Arguments Done {A} a.
Arguments Panic {A}.
Arguments OutOfFuel {A}.

#[global] Instance outcome_bind : MBind outcome := fun A B k c =>
  match c with
  | Done a => k a
  | Panic => Panic
  | OutOfFuel => OutOfFuel
  end.

#[global] Instance outcome_ret : MRet outcome := fun A a => Done a.

(** ** Slices and counted loops *)

(** [s[i]]: an index outside [0, len(s)) panics. *)
Definition index {A : Type} (s : list A) (i : nat) : outcome A :=
  match s !! i with
  | Some x => Done x
  | None => Panic
  end.

(** [s[i] = x]: an index outside [0, len(s)) panics. *)
Definition assign {A : Type} (s : list A) (i : nat) (x : A) : outcome (list A) :=
  if i <? length s then Done (<[i := x]> s) else Panic.

(** [count] iterations of [body], the loop variable running from [i] upwards. *)
Fixpoint for_from {S : Type} (i count : nat) (body : nat -> S -> outcome S) (s : S)
  : outcome S :=
  match count with
  | O => Done s
  | Datatypes.S count' => s' ← body i s; for_from (Datatypes.S i) count' body s'
  end.

(** [for i := range n { body }] and [for i in 0..<n { body }]. *)
Definition for_range {S : Type} (n : nat) (body : nat -> S -> outcome S) (s : S)
  : outcome S :=
  for_from 0 n body s.

(** ** binary64 constants and conversions *)

(** [math.Pi] and [Double.pi]: the binary64 number nearest to pi. *)
Definition Pi : float := 0x1.921fb54442d18p+1%float.

(** [float64(n)] and [Double(n)] of a length: the nearest binary64 number. *)
Definition float64 (n : nat) : float :=
  SF2Prim (binary_normalize prec emax (Z.of_nat n) 0 false).

(** A finite float: a zero, a subnormal or a normal number, neither an
    infinity nor NaN. *)
Definition finite (x : float) : bool :=
  match Prim2SF x with
  | S754_zero _ | S754_finite _ _ _ => true
  | S754_infinity _ | S754_nan => false
  end.

(** A zero of either sign. *)
Definition signed_zero (x : float) : Prop := x = 0%float \/ x = (-0)%float.

(** The number one as sign, mantissa and exponent. *)
Definition SFone : spec_float := S754_finite false 4503599627370496 (-52).

(** The largest finite binary64 number, [math.MaxFloat64]. *)
Definition MaxFloat64 : float := 0x1.fffffffffffffp+1023%float.

(** ** Magnitudes of binary64 numbers *)

(** A finite number below 2^k in magnitude: a zero, or a mantissa of d bits
    at an exponent e with d + e <= k. *)
Definition below_sf (k : Z) (x : spec_float) : bool :=
  match x with
  | S754_zero _ => true
  | S754_finite _ m e => (Z.pos (digits2_pos m) + e <=? k)%Z
  | S754_infinity _ | S754_nan => false
  end.

Definition below (k : Z) (x : float) : bool := below_sf k (Prim2SF x).

(** A positive number of at least 2^(b-1), or +Inf. *)
Definition above_sf (b : Z) (x : spec_float) : bool :=
  match x with
  | S754_finite false m e => (b <=? Z.pos (digits2_pos m) + e)%Z
  | S754_infinity false => true
  | _ => false
  end.

(** What rounding to nearest even makes of the mantissa [M] whose bits end
    below position [D]: the sign is kept, the result is a valid number and
    its bits end at [D] or one position higher. *)
Definition rounded (s : bool) (M D : Z) (r : spec_float) : Prop :=
  match r with
  | S754_zero s' => s' = s /\ (M = 0 \/ D <= -1074)%Z
  | S754_finite s' m e =>
    s' = s /\ bounded prec emax m e = true
    /\ (Z.pos (digits2_pos m) + e <= Z.max (D + 1) (-1073))%Z
    /\ (0 < M -> -1073 <= D -> D <= Z.pos (digits2_pos m) + e)%Z
  | S754_infinity s' => s' = s /\ (1024 <= D)%Z
  | S754_nan => False
  end.

(** ** The Go port *)

Module Go.

(** fft/complex.go *)
Record Complex : Set := mkComplex { Real : float; Imag : float }.

Definition Add (c other : Complex) : Complex :=
  mkComplex (Real c + Real other)%float (Imag c + Imag other)%float.

Definition Sub (c other : Complex) : Complex :=
  mkComplex (Real c - Real other)%float (Imag c - Imag other)%float.

Definition Mul (c other : Complex) : Complex :=
  mkComplex (Real c * Real other - Imag c * Imag other)%float
            (Real c * Imag other + Imag c * Real other)%float.

Definition MulScalar (c : Complex) (scalar : float) : Complex :=
  mkComplex (Real c * scalar)%float (Imag c * scalar)%float.

(** fft/cooley_tukey.go; [math.Cos] and [math.Sin] belong to the Go library
    and are parameters of the transform. *)
Section Transform.

Variables Cos Sin : float -> float.

(** Body of the first loop of [fft]:
    [a0 = append(a0, arr[2*i]); a1 = append(a1, arr[2*i+1])]. *)
Definition split_step (arr : list Complex) (i : nat)
    (st : list Complex * list Complex) : outcome (list Complex * list Complex) :=
  let '(a0, a1) := st in
  x ← index arr (2 * i);
  let a0 := a0 ++ [x] in
  y ← index arr (2 * i + 1);
  let a1 := a1 ++ [y] in
  Done (a0, a1).

(** Body of the second loop of [fft]; the state is [arr] and [w]. *)
Definition combine_step (a0 a1 : list Complex) (wn : Complex) (half : nat) (i : nat)
    (st : list Complex * Complex) : outcome (list Complex * Complex) :=
  let '(arr, w) := st in
  p ← index a0 i;
  y ← index a1 i;
  let q := Mul w y in
  arr ← assign arr i (Add p q);
  arr ← assign arr (i + half) (Sub p q);
  let w := Mul w wn in
  Done (arr, w).

(** [fft(arr)]: the result is the content of [arr] when the call returns.
    [fuel] bounds the depth of the recursion. *)
Fixpoint fft (fuel : nat) (arr : list Complex) : outcome (list Complex) :=
  match fuel with
  | O => OutOfFuel
  | Datatypes.S fuel' =>
    let n := length arr in
    if n =? 1 then Done arr
    else
      '(a0, a1) ← for_range (n / 2) (split_step arr) ([], []);
      a0 ← fft fuel' a0;
      a1 ← fft fuel' a1;
      let ang := (-2 * Pi / float64 n)%float in
      let w := mkComplex 1 0 in
      let wn := mkComplex (Cos ang) (Sin ang) in
      '(arr, _) ← for_range (n / 2) (combine_step a0 a1 wn (n / 2)) (arr, w);
      Done arr
  end.

(** The value [wn] of a call on [n] elements, [(cos(-2*pi/n), sin(-2*pi/n))]. *)
Definition twiddle_base (n : nat) : Complex :=
  let ang := (-2 * Pi / float64 n)%float in
  mkComplex (Cos ang) (Sin ang).

(** The running power: [w] after [k] executions of [w = w.Mul(wn)], starting
    from [Complex{1, 0}]. *)
Definition twiddle_power (wn : Complex) (k : nat) : Complex :=
  Nat.iter k (fun w => Mul w wn) (mkComplex 1 0).

(** Body of the loop of [FFT]: [arr[i] = arr[i].MulScalar(factor)]. *)
Definition scale_step (factor : float) (i : nat) (arr : list Complex)
  : outcome (list Complex) :=
  x ← index arr i;
  assign arr i (MulScalar x factor).

(** [FFT(arr)]. *)
Definition FFT (fuel : nat) (arr : list Complex) : outcome (list Complex) :=
  arr ← fft fuel arr;
  let factor := (1 / sqrt (float64 (length arr)))%float in
  for_range (length arr) (scale_step factor) arr.

End Transform.

End Go.

(** Every component of every element is finite. *)
Definition all_finite (arr : list Go.Complex) : bool :=
  forallb (fun c => finite (Go.Real c) && finite (Go.Imag c)) arr.

(** Both components of an element, and every component of every element, are
    finite and below 2^k in magnitude. *)
Definition below_complex (k : Z) (c : Go.Complex) : bool :=
  below k (Go.Real c) && below k (Go.Imag c).

Definition all_below (k : Z) (arr : list Go.Complex) : bool :=
  forallb (below_complex k) arr.

(** The running powers [w] that the combine loops use on slices of up to [n]
    elements are below 2 in magnitude in both components. *)
Definition twiddles_below (Cos Sin : float -> float) (n : nat) : Prop :=
  forall m i, 2 <= m <= n -> i < m / 2 ->
    below_complex 1 (Go.twiddle_power (Go.twiddle_base Cos Sin m) i) = true.

(** Four samples near 2^1000 in magnitude. *)
Definition large4 : list Go.Complex :=
  [Go.mkComplex 0x1p+1000 0; Go.mkComplex 0 (-0x1.8p+1000);
   Go.mkComplex 0x1p+999 0x1p+999; Go.mkComplex (-0x1p+1000) 0x1.fp+1000].

(** Three samples, and four times (0.5, 0). *)
Definition three_samples : list Go.Complex :=
  [Go.mkComplex 1 2; Go.mkComplex 3 4; Go.mkComplex 5 6].

Definition halves4 : list Go.Complex :=
  [Go.mkComplex 0.5 0; Go.mkComplex 0.5 0; Go.mkComplex 0.5 0; Go.mkComplex 0.5 0].

(** The unit impulse of length 4. *)
Definition impulse4 : list Go.Complex :=
  [Go.mkComplex 1 0; Go.mkComplex 0 0; Go.mkComplex 0 0; Go.mkComplex 0 0].

(** ** The Swift port *)

Module Swift.

(** The [Complex] struct and its operators [+], [-], [*] (complex) and [*]
    (by a [Double]). *)
Record Complex : Set := mkComplex { real : float; imag : float }.

Definition op_add (l r : Complex) : Complex :=
  mkComplex (real l + real r)%float (imag l + imag r)%float.

Definition op_sub (l r : Complex) : Complex :=
  mkComplex (real l - real r)%float (imag l - imag r)%float.

Definition op_mul (l r : Complex) : Complex :=
  mkComplex (real l * real r - imag l * imag r)%float
            (real l * imag r + imag l * real r)%float.

Definition op_mul_scalar (l : Complex) (r : float) : Complex :=
  mkComplex (real l * r)%float (imag l * r)%float.

(** [cos] and [sin] come from Foundation and are parameters. *)
Section Transform.

Variables cos sin : float -> float.

(** [a0.append(arr[2 * i]); a1.append(arr[2 * i + 1])] *)
Definition split_step (arr : list Complex) (i : nat)
    (st : list Complex * list Complex) : outcome (list Complex * list Complex) :=
  let '(a0, a1) := st in
  x ← index arr (2 * i);
  let a0 := a0 ++ [x] in
  y ← index arr (2 * i + 1);
  let a1 := a1 ++ [y] in
  Done (a0, a1).

(** Body of the second loop of [_fft]; the state is [arr] and [w]. *)
Definition combine_step (a0 a1 : list Complex) (wn : Complex) (half : nat) (i : nat)
    (st : list Complex * Complex) : outcome (list Complex * Complex) :=
  let '(arr, w) := st in
  p ← index a0 i;
  y ← index a1 i;
  let q := op_mul w y in
  arr ← assign arr i (op_add p q);
  arr ← assign arr (i + half) (op_sub p q);
  let w := op_mul w wn in
  Done (arr, w).

(** The nested function [_fft(&arr)]. *)
Fixpoint _fft (fuel : nat) (arr : list Complex) : outcome (list Complex) :=
  match fuel with
  | O => OutOfFuel
  | Datatypes.S fuel' =>
    let n := length arr in
    if n =? 1 then Done arr
    else
      '(a0, a1) ← for_range (n / 2) (split_step arr) ([], []);
      a0 ← _fft fuel' a0;
      a1 ← _fft fuel' a1;
      let ang := (-2.0 * Pi / float64 n)%float in
      let w := mkComplex 1 0 in
      let wn := mkComplex (cos ang) (sin ang) in
      '(arr, _) ← for_range (n / 2) (combine_step a0 a1 wn (n / 2)) (arr, w);
      Done arr
  end.

(** [arr[i] = arr[i] * factor] *)
Definition scale_step (factor : float) (i : nat) (arr : list Complex)
  : outcome (list Complex) :=
  x ← index arr i;
  assign arr i (op_mul_scalar x factor).

(** [fft(&arr)] *)
Definition fft (fuel : nat) (arr : list Complex) : outcome (list Complex) :=
  arr ← _fft fuel arr;
  let factor := (1.0 / sqrt (float64 (length arr)))%float in
  for_range (length arr) (scale_step factor) arr.

End Transform.

End Swift.

(** A Swift sample seen as a Go sample: the same two components. *)
Definition as_go (c : Swift.Complex) : Go.Complex :=
  Go.mkComplex (Swift.real c) (Swift.imag c).

(** The result of a call seen through a view of its value. *)
Definition outcome_map {A B : Type} (f : A -> B) (c : outcome A) : outcome B :=
  x ← c; Done (f x).

(** The states of the two loops of the Swift transform seen as Go states. *)
Definition pair_go (st : list Swift.Complex * list Swift.Complex)
  : list Go.Complex * list Go.Complex :=
  (map as_go st.1, map as_go st.2).

Definition state_go (st : list Swift.Complex * Swift.Complex)
  : list Go.Complex * Go.Complex :=
  (map as_go st.1, as_go st.2).

(** Four times (0.5, 0) as a Swift array. *)
Definition swift_halves4 : list Swift.Complex :=
  [Swift.mkComplex 0.5 0; Swift.mkComplex 0.5 0; Swift.mkComplex 0.5 0;
   Swift.mkComplex 0.5 0].

(** The unit impulse of length 4 delayed by one sample, as a Swift array. *)
Definition swift_delayed4 : list Swift.Complex :=
  [Swift.mkComplex 0 0; Swift.mkComplex 1 0; Swift.mkComplex 0 0; Swift.mkComplex 0 0].

(** The unit impulse of length 4 as a Swift array. *)
Definition swift_impulse4 : list Swift.Complex :=
  [Swift.mkComplex 1 0; Swift.mkComplex 0 0; Swift.mkComplex 0 0; Swift.mkComplex 0 0].

(** ** The Go command-line harness (package main) *)

Module Harness.

Import Go.

(** What becomes of the process: [os.Exit(status)] after writing [stderr], or
    [main] went on to compute [n], to generate the input and to call the
    transform, whose outcome is [transform] (the elapsed wall-clock time it
    then prints is not modelled). *)
Inductive process : Type :=
| Exited (status : Z) (stderr : string)
| Ran (n : Z) (transform : outcome (list Complex)).

(** The value of a Go [int] (64 bits, two's complement) holding [z]. *)
Definition wrap_int (z : Z) : Z :=
  ((z + 2 ^ 63) mod 2 ^ 64 - 2 ^ 63)%Z.

Definition newline : string := String (Ascii.ascii_of_nat 10) EmptyString.

(** Whether [make([]f.Complex, 0, cap)] returns.  [makeslice] panics (cap out
    of range) when the capacity is negative, or when the memory it asks for,
    16 bytes for each [Complex] of two [float64], overflows a 64-bit word or
    exceeds the runtime's [maxAlloc]. *)
Definition make_ok (maxAlloc : N) (cap : Z) : bool :=
  ((0 <=? cap) && (16 * cap <? 2 ^ 64) && (16 * cap <=? Z.of_N maxAlloc))%Z.

Section Main.

(** [maxAlloc] is a constant of the Go runtime (2^48 on 64-bit Linux);
    [math.Cos], [math.Sin], [math.Round] and [strconv.Atoi] ([None] when it
    returns an error) belong to the Go library. *)
Variable maxAlloc : N.
Variables Cos Sin Round : float -> float.
Variable Atoi : string -> option Z.

(** [round(n)], precision 2. *)
Definition round (n : float) : float := (Round (n * 100.0) / 100.0)%float.

(** Body of the loop of [generateInputs]. *)
Definition generate_step (len : nat) (i : nat) (inputs : list Complex)
  : outcome (list Complex) :=
  let theta := ((float64 i / float64 len) * Pi)%float in
  let re := (1.0 * Cos (10.0 * theta) + 0.5 * Cos (25.0 * theta))%float in
  let im := (1.0 * Sin (10.0 * theta) + 0.5 * Sin (25.0 * theta))%float in
  Done (inputs ++ [mkComplex (round re) (round im)]).

(** [generateInputs(len)]: [make] panics on a capacity out of range (a
    machine that runs out of memory below that limit is not modelled). *)
Definition generateInputs (len : Z) : outcome (list Complex) :=
  if make_ok maxAlloc len
  then for_range (Z.to_nat len) (generate_step (Z.to_nat len)) []
  else Panic.

(** [main], with [os.Args = arg0 :: args]. *)
Definition main (fuel : nat) (arg0 : string) (args : list string) : process :=
  match args with
  | [] => Exited 1 ("usage: " ++ arg0 ++ " <size>" ++ newline)
  | a :: _ =>
    match Atoi a with
    | None => Exited 1 ("invalid <size>; must be a non-negative integer" ++ newline)
    | Some size =>
      if (size <? 0)%Z
      then Exited 1 ("invalid <size>; must be a non-negative integer" ++ newline)
      else
        let n := wrap_int (Z.shiftl 1 size) in
        Ran n (signals ← generateInputs n; FFT Cos Sin fuel signals)
    end
  end.

End Main.

End Harness.

(** ** Stand-ins for the library functions

    Closed examples need some cosine, sine, rounding and decimal reader in
    place of the libraries' ones; the theorems hold for every choice. *)

(** The nearest integer (ties to even) of a float below 2^52 in magnitude. *)
Definition nearest_int (x : float) : float :=
  let big := 0x1p+52%float in
  if (abs x <? big)%float
  then if (x <? 0)%float then (- ((- x + big) - big))%float else ((x + big) - big)%float
  else x.

(** [x] as [r + k * pi] with [r] small: [r], and whether [k] is odd. *)
Definition reduce_angle (x : float) : float * bool :=
  let k := nearest_int (x / Pi) in
  ((x - k * Pi)%float, negb (k - 2 * nearest_int (k / 2) =? 0)%float).

(** Cosine and sine by their Taylor polynomials, evaluated in binary64. *)
Definition poly_cos (x : float) : float :=
  let '(r, odd) := reduce_angle x in
  let x2 := (r * r)%float in
  let c := (1 - x2 / 2 * (1 - x2 / 12 * (1 - x2 / 30 * (1 - x2 / 56 * (1 - x2 / 90 *
     (1 - x2 / 132 * (1 - x2 / 182 * (1 - x2 / 240 * (1 - x2 / 306 *
     (1 - x2 / 380))))))))))%float in
  if odd then (- c)%float else c.

Definition poly_sin (x : float) : float :=
  let '(r, odd) := reduce_angle x in
  let x2 := (r * r)%float in
  let s := (r * (1 - x2 / 6 * (1 - x2 / 20 * (1 - x2 / 42 * (1 - x2 / 72 * (1 - x2 / 110 *
     (1 - x2 / 156 * (1 - x2 / 210 * (1 - x2 / 272 * (1 - x2 / 342 *
     (1 - x2 / 420)))))))))))%float in
  if odd then (- s)%float else s.

(** Two cosines that differ in the last bits at -pi/2, where Go's [math.Cos]
    returns 6.123233995736757e-17 and the C library's [cos], which Foundation
    calls, 6.123233995736766e-17; elsewhere both are the Taylor cosine. *)
Definition cos_go_like (x : float) : float :=
  if (x =? -0x1.921fb54442d18p+0)%float then 0x1.1a62633145c00p-54%float
  else poly_cos x.

Definition cos_libm_like (x : float) : float :=
  if (x =? -0x1.921fb54442d18p+0)%float then 0x1.1a62633145c07p-54%float
  else poly_cos x.

(** The Taylor cosine written with a product by one. *)
Definition poly_cos_times_one (x : float) : float := (poly_cos x * 1)%float.

(** The real part of the element at index 1 of a returned slice. *)
Definition second_real (c : outcome (list Go.Complex)) : spec_float :=
  match c with
  | Done (_ :: x :: _) => Prim2SF (Go.Real x)
  | _ => S754_nan
  end.

(** The runtime's [maxAlloc] on 64-bit Linux: 2^48 bytes. *)
Definition maxAlloc_linux : N := 2 ^ 48.

(** Decimal digits read most significant first. *)
Fixpoint decimal_digits (s : string) (acc : Z) : option Z :=
  match s with
  | EmptyString => Some acc
  | String c s' =>
    let d := (Z.of_nat (Ascii.nat_of_ascii c) - 48)%Z in
    if ((0 <=? d) && (d <=? 9))%Z then decimal_digits s' (10 * acc + d)%Z else None
  end.

(** An optional sign and decimal digits, within the range of a 64-bit int. *)
Definition decimal (s : string) : option Z :=
  let '(neg, body) :=
    match s with
    | String "-"%char rest => (true, rest)
    | String "+"%char rest => (false, rest)
    | _ => (false, s)
    end in
  match body with
  | EmptyString => None
  | _ =>
    match decimal_digits body 0 with
    | Some v =>
      let v := if neg then (- v)%Z else v in
      if ((- 2 ^ 63 <=? v) && (v <? 2 ^ 63))%Z then Some v else None
    | None => None
    end
  end.

(** ** The samples of the Go input generator *)

(** The sample that iteration [i] of the loop of [generateInputs(len)]
    appends. *)
Definition go_sample (Cos Sin Round : float -> float) (len i : nat) : Go.Complex :=
  let theta := ((float64 i / float64 len) * Pi)%float in
  let re := (1.0 * Cos (10.0 * theta) + 0.5 * Cos (25.0 * theta))%float in
  let im := (1.0 * Sin (10.0 * theta) + 0.5 * Sin (25.0 * theta))%float in
  Go.mkComplex (Harness.round Round re) (Harness.round Round im).

(** ** The Swift command-line script (main.swift) *)

Module SwiftMain.

(** What becomes of the process: [exit(status)] after writing [stderr], or
    the script went on to compute [len], to generate the input and to call
    [fft], whose outcome is [transform] (the elapsed time it then prints is
    not modelled). *)
Inductive process : Type :=
| Exited (status : Z) (stderr : string)
| Ran (len : Z) (transform : outcome (list Swift.Complex)).

(** [lhs << rhs] on [Int] (64 bits): a negative [rhs] shifts right by its
    magnitude, an [rhs] of 64 or more gives zero, any other [rhs] shifts left
    and drops the bits that leave the word. *)
Definition smart_shl (lhs rhs : Z) : Z :=
  if (rhs <? 0)%Z then Z.shiftr lhs (- rhs)
  else if (64 <=? rhs)%Z then 0%Z
  else Harness.wrap_int (Z.shiftl lhs rhs).

Section Script.

(** [cos], [sin] and [Foundation.round] come from Foundation, and [Int(_:)]
    ([None] when it returns [nil]) from the standard library. *)
Variables cos sin Foundation_round : float -> float.
Variable Int : string -> option Z.

(** [round(n)], precision 2. *)
Definition round (n : float) : float := (Foundation_round (n * 100.0) / 100.0)%float.

(** Body of the loop of [generateInputs]. *)
Definition generate_step (len : nat) (i : nat) (res : list Swift.Complex)
  : outcome (list Swift.Complex) :=
  let theta := (float64 i / float64 len * Pi)%float in
  let re := (1.0 * cos (10.0 * theta) + 0.5 * cos (25.0 * theta))%float in
  let im := (1.0 * sin (10.0 * theta) + 0.5 * sin (25.0 * theta))%float in
  Done (res ++ [Swift.mkComplex (round re) (round im)]).

(** [generateInputs(len:)]: [reserveCapacity(len)] only reserves memory
    (running out of it is not modelled), and the range [0..<len] traps when
    [len] is negative. *)
Definition generateInputs (len : Z) : outcome (list Swift.Complex) :=
  if (len <? 0)%Z then Panic
  else for_range (Z.to_nat len) (generate_step (Z.to_nat len)) [].

(** The [else] branch of the [guard]: the usage line and [exit(1)]. *)
Definition usage (args : list string) : process :=
  let first := match args with a :: _ => a | [] => "prog"%string end in
  Exited 1 ("usage: " ++ first ++ " <size>" ++ Harness.newline).

(** The script, with [CommandLine.arguments = args]. *)
Definition main (fuel : nat) (args : list string) : process :=
  match args with
  | _ :: a :: _ =>
    match Int a with
    | Some size =>
      let len := smart_shl 1 size in
      Ran len (signals ← generateInputs len; Swift.fft cos sin fuel signals)
    | None => usage args
    end
  | _ => usage args
  end.

End Script.

End SwiftMain.

(** * Properties *)

(** ** Outcomes, slices and loops *)

Lemma bind_Done {A B : Type} (a : A) (k : A -> outcome B) : (x ← Done a; k x) = k a.
Proof. reflexivity. Qed.

Lemma bind_Done_inv {A B : Type} (c : outcome A) (k : A -> outcome B) (b : B) :
  (x ← c; k x) = Done b -> exists a, c = Done a /\ k a = Done b.
Proof. destruct c as [a| |]; simpl; try discriminate. intros H. exists a. auto. Qed.

Lemma index_Done {A : Type} (s : list A) i x : s !! i = Some x -> index s i = Done x.
Proof. unfold index. now intros ->. Qed.

Lemma index_lt {A : Type} (s : list A) i :
  i < length s -> exists x, s !! i = Some x /\ index s i = Done x.
Proof.
  intros H. destruct (lookup_lt_is_Some_2 s i H) as [x Hx].
  exists x. split; [done|]. now apply index_Done.
Qed.

Lemma assign_Done {A : Type} (s : list A) i x :
  i < length s -> assign s i x = Done (<[i := x]> s).
Proof. unfold assign. intros H. apply Nat.ltb_lt in H. now rewrite H. Qed.

Lemma index_map {A B : Type} (f : A -> B) (s : list A) i :
  index (map f s) i = outcome_map f (index s i).
Proof.
  unfold index, outcome_map. change (map f s) with (f <$> s).
  rewrite list_lookup_fmap. now destruct (s !! i).
Qed.

Lemma assign_map {A B : Type} (f : A -> B) (s : list A) i x :
  assign (map f s) i (f x) = outcome_map (map f) (assign s i x).
Proof.
  unfold assign, outcome_map. rewrite length_map.
  destruct (i <? length s); simpl; [|done].
  change (map f) with (fmap (M:=list) f). now rewrite list_fmap_insert.
Qed.

(** Two loops whose bodies commute with a view of the state run in step. *)
Lemma for_from_sim {S T : Type} (f : S -> T) (body : nat -> S -> outcome S)
    (body' : nat -> T -> outcome T) c : forall i s,
  (forall j t, body' j (f t) = outcome_map f (body j t)) ->
  for_from i c body' (f s) = outcome_map f (for_from i c body s).
Proof.
  induction c as [|c IH]; intros i s H; simpl; [done|].
  rewrite H. destruct (body i s) as [s'| |]; simpl; try done.
  now apply IH.
Qed.

(** ** binary64 facts: multiplying by one, and signed zeros *)

(** The product of a number with one is rounded from a mantissa shifted left
    by 52 bits: the shift back is exact and gives the number itself. *)
Lemma SF64mul_one_r (x : spec_float) :
  valid_binary x = true -> SF64mul x SFone = x.
Proof.
  destruct x as [s|s| |s m e]; try reflexivity.
  - intros _. cbn. now destruct s.
  - intros _. cbn. now destruct s.
  - intro Hv.
    unfold valid_binary, SpecFloat.valid_binary, bounded, canonical_mantissa in Hv.
    apply andb_prop in Hv as [Hc Hb].
    apply Z.eqb_eq in Hc.
    unfold SF64mul, SFone, SFmul.
    rewrite Pos.mul_comm. cbv beta iota fix delta [Pos.mul].
    unfold binary_round_aux, shr_fexp.
    cbn [Zdigits2 digits2_pos shr_record_of_loc].
    set (d := digits2_pos m) in *.
    match goal with |- context [fexp ?p ?em (Z.pos ?a + ?b)%Z] =>
      replace (Z.pos a + b)%Z with (Z.pos d + e)%Z by lia end.
    rewrite Hc.
    replace (e - (e + -52))%Z with 52%Z by lia.
    cbn [shr SpecFloat.iter_pos shr_1 shr_m shr_r shr_s loc_of_shr_record
         round_nearest_even Zdigits2 orb shr_record_of_loc].
    replace (e + -52 + 52)%Z with e by lia.
    fold d. rewrite Hc, Z.sub_diag.
    cbn [shr shr_m].
    rewrite Hb. now destruct s.
Qed.

Lemma SF64mul_comm (x y : spec_float) : SF64mul x y = SF64mul y x.
Proof.
  unfold SF64mul, SFmul.
  destruct x as [sx|sx| |sx mx ex], y as [sy|sy| |sy my ey];
    try reflexivity; try (now rewrite xorb_comm).
  now rewrite xorb_comm, Pos.mul_comm, Z.add_comm.
Qed.

Lemma mul_one_r (x : float) : (x * 1)%float = x.
Proof.
  apply Prim2SF_inj. rewrite mul_spec. change (Prim2SF 1) with SFone.
  apply SF64mul_one_r, Prim2SF_valid.
Qed.

Lemma mul_comm (x y : float) : (x * y)%float = (y * x)%float.
Proof. apply Prim2SF_inj. rewrite !mul_spec. apply SF64mul_comm. Qed.

Lemma mul_one_l (x : float) : (1 * x)%float = x.
Proof. rewrite mul_comm. apply mul_one_r. Qed.

Lemma Prim2SF_zero (x : float) s : Prim2SF x = S754_zero s -> signed_zero x.
Proof.
  intros H. destruct s; [right|left]; apply Prim2SF_inj; rewrite H; reflexivity.
Qed.

Lemma finite_cases (x : float) :
  finite x = true ->
  (exists s, Prim2SF x = S754_zero s) \/ (exists s m e, Prim2SF x = S754_finite s m e).
Proof.
  unfold finite. destruct (Prim2SF x) as [s|s| |s m e]; try discriminate; eauto.
Qed.

Lemma mul_zero_r (x : float) : finite x = true -> signed_zero (x * 0).
Proof.
  intros H. destruct (finite_cases x H) as [[s E]|(s & m & e & E)];
    apply (Prim2SF_zero _ (xorb s false)); rewrite mul_spec, E; reflexivity.
Qed.

Lemma mul_zero_l (x : float) : finite x = true -> signed_zero (0 * x).
Proof. rewrite mul_comm. apply mul_zero_r. Qed.

Lemma sub_zero_finite (x z : float) :
  finite x = true -> signed_zero z -> finite (x - z) = true.
Proof.
  intros H Hz. unfold finite at 1. rewrite sub_spec.
  destruct (finite_cases x H) as [[s E]|(s & m & e & E)]; rewrite E;
    destruct Hz as [-> | ->]; try reflexivity; now destruct s.
Qed.

Lemma add_zero_finite (x z : float) :
  finite x = true -> signed_zero z -> finite (x + z) = true.
Proof.
  intros H Hz. unfold finite at 1. rewrite add_spec.
  destruct (finite_cases x H) as [[s E]|(s & m & e & E)]; rewrite E;
    destruct Hz as [-> | ->]; try reflexivity; now destruct s.
Qed.

Lemma zero_sub_zero (a b : float) :
  signed_zero a -> signed_zero b -> signed_zero (a - b).
Proof. intros [-> | ->] [-> | ->]; vm_compute; auto. Qed.

Lemma zero_add_zero (a b : float) :
  signed_zero a -> signed_zero b -> signed_zero (a + b).
Proof. intros [-> | ->] [-> | ->]; vm_compute; auto. Qed.

(** ** binary64 facts: magnitudes under rounding *)

Section Magnitudes.

Local Open Scope Z_scope.

(** A mantissa of d bits lies from 2^(d-1) up to, not including, 2^d. *)
Lemma digits2_bounds (p : positive) :
  2 ^ (Z.pos (digits2_pos p) - 1) <= Z.pos p < 2 ^ Z.pos (digits2_pos p).
Proof.
  induction p as [p IH|p IH|]; cbn [digits2_pos]; [| |simpl; lia];
    rewrite Pos2Z.inj_succ;
    replace (Z.succ (Z.pos (digits2_pos p)) - 1) with (Z.succ (Z.pos (digits2_pos p) - 1)) by lia;
    rewrite !Z.pow_succ_r by lia; lia.
Qed.

Lemma digits2_le (p : positive) (k : Z) :
  Z.pos p < 2 ^ k -> Z.pos (digits2_pos p) <= k.
Proof.
  intros H. destruct (Z_le_gt_dec (Z.pos (digits2_pos p)) k) as [|Hgt]; [assumption|].
  pose proof (digits2_bounds p) as [Hlo _].
  assert (2 ^ k <= 2 ^ (Z.pos (digits2_pos p) - 1)).
  { destruct (Z_lt_le_dec k 0) as [Hk|Hk].
    - rewrite (Z.pow_neg_r 2 k) by assumption. apply Z.pow_nonneg. lia.
    - apply Z.pow_le_mono_r; lia. }
  lia.
Qed.

Lemma digits2_ge (p : positive) (k : Z) :
  2 ^ k <= Z.pos p -> k < Z.pos (digits2_pos p).
Proof.
  intros H. pose proof (digits2_bounds p) as [_ Hhi].
  apply (Z.pow_lt_mono_r_iff 2); lia.
Qed.

(** Shifting a mantissa right by n bits divides it by 2^n. *)
Lemma shr_1_m (r : shr_record) : 0 <= shr_m r -> shr_m (shr_1 r) = shr_m r / 2.
Proof.
  destruct r as [m r s]. cbn [shr_m]. intros H.
  destruct m as [|[p|p|]|p]; cbn [shr_1 shr_m]; [reflexivity| | |reflexivity|lia].
  - rewrite Pos2Z.inj_xI. apply Z.div_unique with 1; lia.
  - rewrite Pos2Z.inj_xO. apply Z.div_unique with 0; lia.
Qed.

Lemma iter_shr_1_m (n : positive) : forall r : shr_record,
  0 <= shr_m r -> shr_m (SpecFloat.iter_pos shr_1 n r) = shr_m r / 2 ^ Z.pos n.
Proof.
  assert (Hpos : forall a k, 0 <= a -> 0 <= a / 2 ^ k).
  { intros a k Ha. destruct (Z_lt_le_dec k 0) as [Hk|Hk].
    - rewrite Z.pow_neg_r by assumption. rewrite Z.div_0_r. lia.
    - apply Z.div_pos; [assumption|]. apply Z.pow_pos_nonneg; lia. }
  assert (Hp2 : forall k, 0 <= k -> 0 < 2 ^ k) by (intros; apply Z.pow_pos_nonneg; lia).
  induction n as [n IH|n IH|]; intros r Hr; cbn [SpecFloat.iter_pos].
  - pose proof (shr_1_m r Hr) as H1.
    assert (H1' : 0 <= shr_m (shr_1 r)) by (rewrite H1; apply (Hpos _ 1); assumption).
    pose proof (IH _ H1') as H2.
    assert (H2' : 0 <= shr_m (SpecFloat.iter_pos shr_1 n (shr_1 r)))
      by (rewrite H2; now apply Hpos).
    rewrite (IH _ H2'), H2, H1.
    rewrite !Z.div_div by (try apply Hp2; lia).
    f_equal. rewrite (Pos2Z.inj_xI n).
    replace (2 * Z.pos n + 1) with (1 + Z.pos n + Z.pos n) by lia.
    rewrite (Z.pow_add_r 2 (1 + Z.pos n)), (Z.pow_add_r 2 1) by lia. lia.
  - pose proof (IH _ Hr) as H2.
    assert (H2' : 0 <= shr_m (SpecFloat.iter_pos shr_1 n r)) by (rewrite H2; now apply Hpos).
    rewrite (IH _ H2'), H2.
    rewrite !Z.div_div by (try apply Hp2; lia).
    f_equal. rewrite (Pos2Z.inj_xO n).
    replace (2 * Z.pos n) with (Z.pos n + Z.pos n) by lia.
    now rewrite (Z.pow_add_r 2 (Z.pos n)) by lia.
  - now rewrite shr_1_m.
Qed.

Lemma shr_m_fst (r : shr_record) (e n : Z) :
  0 <= n -> 0 <= shr_m r -> shr_m (fst (shr r e n)) = shr_m r / 2 ^ n.
Proof.
  intros Hn H. destruct n as [|n|n]; cbn [shr fst]; [|now apply iter_shr_1_m|lia].
  now rewrite Z.div_1_r.
Qed.

Lemma shr_snd (r : shr_record) (e n : Z) : 0 <= n -> snd (shr r e n) = e + n.
Proof. intros Hn. destruct n as [|n|n]; cbn [shr snd]; lia. Qed.

Lemma shr_nonpos (r : shr_record) (e n : Z) : n <= 0 -> shr r e n = (r, e).
Proof. intros Hn. destruct n as [|n|n]; cbn [shr]; try reflexivity; lia. Qed.

(** Rounding keeps the mantissa or adds one to it. *)
Lemma round_nearest_even_bounds (m : Z) (l : location) :
  m <= round_nearest_even m l <= m + 1.
Proof.
  destruct l as [|[| |]]; cbn [round_nearest_even]; try lia.
  destruct (Z.even m); lia.
Qed.

Lemma pow2_pos (k : Z) : 0 <= k -> 0 < 2 ^ k.
Proof. intros H. apply Z.pow_pos_nonneg; lia. Qed.

Lemma Zdigits2_bounds (M : Z) :
  0 <= M -> M < 2 ^ Zdigits2 M /\ (0 < M -> 2 ^ (Zdigits2 M - 1) <= M) /\ 0 <= Zdigits2 M.
Proof.
  intros H. destruct M as [|p|p]; cbn [Zdigits2]; [cbn; lia| |lia].
  pose proof (digits2_bounds p). lia.
Qed.

Lemma bounded_iff (m : positive) (e : Z) :
  bounded prec emax m e = true
  <-> Z.max (Z.pos (digits2_pos m) + e - 53) (-1074) = e /\ e <= 971.
Proof.
  unfold bounded, canonical_mantissa. rewrite andb_true_iff, Z.eqb_eq, Z.leb_le.
  reflexivity.
Qed.

(** The rounding step of every operation: the mantissa is shifted right to
    53 bits or to the smallest exponent, rounded, and shifted once more when
    rounding carried into a 54th bit. *)
Lemma binary_round_aux_rounded (s : bool) (M E : Z) (lx : location) :
  0 <= M -> E <= fexp prec emax (Zdigits2 M + E) ->
  rounded s M (Zdigits2 M + E) (binary_round_aux prec emax s M E lx).
Proof.
  intros HM HP.
  unfold binary_round_aux, shr_fexp.
  destruct (Zdigits2_bounds M HM) as (HMhi & HMlo & Hd0).
  set (D := Zdigits2 M + E) in *.
  set (e1 := fexp prec emax D) in *.
  assert (He1 : e1 = Z.max (D - 53) (-1074)) by reflexivity.
  set (r0 := shr_record_of_loc M lx).
  assert (Hr0 : shr_m r0 = M) by (unfold r0; now destruct lx as [|[| |]]).
  assert (Hm1 : shr_m (fst (shr r0 E (e1 - E))) = M / 2 ^ (e1 - E))
    by (rewrite shr_m_fst, Hr0; [reflexivity | lia | lia]).
  assert (Hs1 : snd (shr r0 E (e1 - E)) = e1)
    by (rewrite shr_snd; lia).
  destruct (shr r0 E (e1 - E)) as [r1 e1'].
  cbn [fst snd] in Hm1, Hs1. subst e1'.
  pose proof (round_nearest_even_bounds (shr_m r1) (loc_of_shr_record r1)) as Hr.
  set (m1 := round_nearest_even (shr_m r1) (loc_of_shr_record r1)) in *.
  set (W := Z.max (D - e1) 0).
  assert (Hp1 : 0 < 2 ^ (e1 - E)) by (apply pow2_pos; lia).
  assert (Hm' : 0 <= shr_m r1 < 2 ^ W).
  { rewrite Hm1. split.
    - apply Z.div_pos; lia.
    - apply Z.div_lt_upper_bound; [lia|].
      rewrite <- Z.pow_add_r by lia.
      eapply Z.lt_le_trans; [exact HMhi|]. apply Z.pow_le_mono_r; lia. }
  assert (Hm'' : 0 < M -> -1073 <= D -> 2 ^ (D - e1 - 1) <= shr_m r1).
  { intros HM0 HD. rewrite Hm1. apply Z.div_le_lower_bound; [lia|].
    rewrite <- Z.pow_add_r by lia.
    replace (e1 - E + (D - e1 - 1)) with (Zdigits2 M - 1) by lia. auto. }
  assert (HW : 0 <= W <= 53) by lia.
  assert (HpW : 0 < 2 ^ W) by (apply pow2_pos; lia).
  assert (HM0 : M = 0 -> E <= -1074 /\ D = E /\ shr_m r1 = 0).
  { intros ->. cbn [Zdigits2] in *. split; [lia|]. split; [lia|].
    rewrite Hm1. apply Z.div_0_l. lia. }
  destruct m1 as [|p|p] eqn:Em1; [| |lia].
  - cbn [Zdigits2].
    set (n2 := fexp prec emax (0 + e1) - e1).
    set (z := shr_record_of_loc 0 loc_Exact).
    assert (Hz : shr_m (fst (shr z e1 n2)) = 0).
    { destruct (Z_le_gt_dec n2 0) as [Hn|Hn].
      - now rewrite shr_nonpos.
      - rewrite shr_m_fst by (cbn; lia). apply Z.div_0_l.
        pose proof (pow2_pos n2). lia. }
    destruct (shr z e1 n2) as [r2 e2]. cbn [fst] in Hz. rewrite Hz.
    cbn [rounded]. split; [reflexivity|].
    destruct (Z.eq_dec M 0) as [|HMne]; [now left | right].
    destruct (Z_le_gt_dec D (-1074)) as [|HD]; [assumption|].
    assert (0 < 2 ^ (D - e1 - 1)) by (apply pow2_pos; lia).
    specialize (Hm'' ltac:(lia) ltac:(lia)). lia.
  - cbn [Zdigits2]. set (d1 := Z.pos (digits2_pos p)).
    assert (Hd1 : d1 <= W + 1).
    { apply digits2_le. rewrite Z.pow_add_r, Z.pow_1_r by lia. lia. }
    assert (Hd1' : 0 < M -> -1073 <= D -> D - e1 <= d1).
    { intros H1 H2. specialize (Hm'' H1 H2).
      assert (D - e1 - 1 < d1); [|lia]. apply digits2_ge. lia. }
    set (n2 := fexp prec emax (d1 + e1) - e1).
    assert (Hn2 : n2 = Z.max (d1 + e1 - 53) (-1074) - e1) by reflexivity.
    destruct (Z_le_gt_dec n2 0) as [Hn|Hn].
    + rewrite shr_nonpos by lia. cbn [shr_record_of_loc shr_m].
      destruct (e1 <=? emax - prec) eqn:Hfin.
      * apply Z.leb_le in Hfin. change (emax - prec) with 971 in Hfin.
        cbn [rounded]. fold d1. split; [reflexivity|]. split; [|split].
        -- apply bounded_iff. fold d1. split; [|lia].
           destruct (Z.eq_dec M 0) as [HMz|HMne].
           ++ destruct (HM0 HMz) as (H1 & H2 & H3). lia.
           ++ destruct (Z_le_gt_dec D (-1074)) as [HD|HD]; [lia|].
              specialize (Hd1' ltac:(lia) ltac:(lia)). lia.
        -- lia.
        -- intros H1 H2. specialize (Hd1' H1 H2). lia.
      * apply Z.leb_gt in Hfin. change (emax - prec) with 971 in Hfin.
        cbn [rounded]. split; [reflexivity|]. lia.
    + assert (Hone : n2 = 1) by lia. assert (HeD : e1 = D - 53) by lia.
      assert (Hd54 : d1 = 54) by lia.
      rewrite Hone. cbn [shr SpecFloat.iter_pos shr_record_of_loc].
      assert (H2 : shr_m (shr_1 (Build_shr_record (Z.pos p) false false)) = Z.pos p / 2)
        by (apply shr_1_m; cbn; lia).
      set (r2 := shr_1 _) in *.
      pose proof (digits2_bounds p) as [Hplo Hphi]. fold d1 in Hplo, Hphi.
      rewrite Hd54 in Hplo, Hphi.
      assert (Hq : 2 ^ 52 <= shr_m r2 < 2 ^ 53).
      { rewrite H2. split.
        - apply Z.div_le_lower_bound; [lia|]. change (2 * 2 ^ 52) with (2 ^ (54 - 1)). lia.
        - apply Z.div_lt_upper_bound; [lia|]. change (2 * 2 ^ 53) with (2 ^ 54). lia. }
      destruct (shr_m r2) as [|q|q]; [lia| |lia].
      assert (Hdq : Z.pos (digits2_pos q) = 53).
      { assert (Z.pos (digits2_pos q) <= 53) by (apply digits2_le; lia).
        assert (52 < Z.pos (digits2_pos q)) by (apply digits2_ge; lia). lia. }
      destruct (e1 + 1 <=? emax - prec) eqn:Hfin.
      * apply Z.leb_le in Hfin. change (emax - prec) with 971 in Hfin.
        cbn [rounded]. split; [reflexivity|]. split; [|lia].
        apply bounded_iff. lia.
      * apply Z.leb_gt in Hfin. change (emax - prec) with 971 in Hfin.
        cbn [rounded]. split; [reflexivity|]. lia.
Qed.

(** The digits of a mantissa shifted left. *)
Lemma iter_xO_pos (d : positive) (p : positive) :
  Z.pos (Pos.iter xO p d) = Z.pos p * 2 ^ Z.pos d
  /\ Z.pos (digits2_pos (Pos.iter xO p d)) = Z.pos (digits2_pos p) + Z.pos d.
Proof.
  induction d as [|d IH] using Pos.peano_ind.
  - cbn [Pos.iter digits2_pos]. rewrite Pos2Z.inj_xO, Pos2Z.inj_succ. lia.
  - rewrite Pos.iter_succ. cbn [digits2_pos]. destruct IH as [IH1 IH2].
    rewrite (Pos2Z.inj_xO (Pos.iter xO p d)), !Pos2Z.inj_succ, IH1, IH2.
    rewrite Z.pow_succ_r by lia. lia.
Qed.

Lemma shl_align_fst (m : positive) (e ez : Z) :
  ez <= e -> Z.pos (fst (shl_align m e ez)) = Z.pos m * 2 ^ (e - ez).
Proof.
  intros H. unfold shl_align.
  destruct (ez - e) as [|d|d] eqn:Ed; cbn [fst]; [| lia |].
  - replace (e - ez) with 0 by lia. lia.
  - replace (e - ez) with (Z.pos d) by lia. apply iter_xO_pos.
Qed.

Lemma binary_round_rounded (s : bool) (m : positive) (e : Z) :
  rounded s (Z.pos m) (Z.pos (digits2_pos m) + e) (binary_round prec emax s m e).
Proof.
  unfold binary_round, shl_align.
  set (f := fexp prec emax (Z.pos (digits2_pos m) + e)).
  destruct (f - e) as [|d|d] eqn:Ed.
  - apply (binary_round_aux_rounded s (Z.pos m)); [lia|]. cbn [Zdigits2]. fold f. lia.
  - apply (binary_round_aux_rounded s (Z.pos m)); [lia|]. cbn [Zdigits2]. fold f. lia.
  - destruct (iter_xO_pos d m) as [Hv Hd].
    assert (HD : Z.pos (digits2_pos (Pos.iter xO m d)) + f = Z.pos (digits2_pos m) + e) by lia.
    pose proof (binary_round_aux_rounded s (Z.pos (Pos.iter xO m d)) f loc_Exact) as H.
    cbn [Zdigits2] in H. rewrite HD in H. fold f in H.
    specialize (H ltac:(lia) ltac:(lia)).
    destruct (binary_round_aux _ _ _ _ _ _) as [s'|s'| |s' m' e']; cbn [rounded] in *;
      try assumption.
    destruct H as [H1 [H2|H2]]; [lia | auto].
Qed.

Lemma rounded_below (s : bool) (M D k : Z) (r : spec_float) :
  rounded s M D r -> D + 1 <= k -> -1073 <= k -> k <= 1024 -> below_sf k r = true.
Proof.
  intros H Hk Hlo Hhi. destruct r as [s'|s'| |s' m e]; cbn [rounded below_sf] in *;
    [reflexivity | lia | contradiction |].
  apply Z.leb_le. lia.
Qed.

Lemma below_sf_mono (a k : Z) (x : spec_float) :
  a <= k -> below_sf a x = true -> below_sf k x = true.
Proof.
  intros Hak. destruct x as [s|s| |s m e]; cbn [below_sf]; auto.
  rewrite !Z.leb_le. lia.
Qed.

Lemma valid_finite (s : bool) (m : positive) (e : Z) :
  valid_binary (S754_finite s m e) = true ->
  Z.pos (digits2_pos m) <= 53 /\ -1074 <= e
  /\ (Z.pos (digits2_pos m) = 53 \/ e = -1074).
Proof.
  intros H. apply bounded_iff in H. lia.
Qed.

Lemma digits2_mul (a b : positive) :
  Z.pos (digits2_pos a) + Z.pos (digits2_pos b) - 1 <= Z.pos (digits2_pos (a * b))
    <= Z.pos (digits2_pos a) + Z.pos (digits2_pos b).
Proof.
  pose proof (digits2_bounds a) as [Ha1 Ha2]. pose proof (digits2_bounds b) as [Hb1 Hb2].
  set (da := Z.pos (digits2_pos a)) in *. set (db := Z.pos (digits2_pos b)) in *.
  assert (0 < 2 ^ (da - 1)) by (apply pow2_pos; lia).
  assert (0 < 2 ^ (db - 1)) by (apply pow2_pos; lia).
  split.
  - assert (da + db - 2 < Z.pos (digits2_pos (a * b))); [|lia].
    apply digits2_ge. rewrite Pos2Z.inj_mul.
    replace (da + db - 2) with ((da - 1) + (db - 1)) by lia.
    rewrite Z.pow_add_r by lia. nia.
  - apply digits2_le. rewrite Pos2Z.inj_mul, Z.pow_add_r by lia. nia.
Qed.

(** A product is below 2^(a+b+1) when its factors are below 2^a and 2^b. *)
Lemma SF64mul_below (a b k : Z) (x y : spec_float) :
  valid_binary x = true -> valid_binary y = true ->
  below_sf a x = true -> below_sf b y = true ->
  a + b + 1 <= k -> -1073 <= k -> k <= 1024 ->
  below_sf k (SF64mul x y) = true.
Proof.
  intros Vx Vy Hx Hy Hk Hlo Hhi.
  destruct x as [sx|sx| |sx mx ex], y as [sy|sy| |sy my ey]; try discriminate;
    try reflexivity.
  cbn [below_sf] in Hx, Hy. apply Z.leb_le in Hx, Hy.
  apply valid_finite in Vx, Vy.
  pose proof (digits2_mul mx my) as Hd.
  unfold SF64mul, SFmul.
  pose proof (binary_round_aux_rounded (xorb sx sy) (Z.pos (mx * my)) (ex + ey) loc_Exact)
    as H.
  cbn [Zdigits2] in H.
  change (fexp prec emax ?z) with (Z.max (z - 53) (-1074)) in H.
  specialize (H ltac:(lia) ltac:(lia)).
  eapply rounded_below; [exact H | lia | assumption | assumption].
Qed.

(** The sum or difference of two aligned mantissas. *)
Lemma aligned_sum_below (mx my : positive) (ex ey c : Z) (z : Z) :
  Z.pos (digits2_pos mx) + ex <= c -> Z.pos (digits2_pos my) + ey <= c ->
  Z.abs z <= Z.pos (fst (shl_align mx ex (Z.min ex ey)))
             + Z.pos (fst (shl_align my ey (Z.min ex ey))) ->
  Z.abs z < 2 ^ (c - Z.min ex ey + 1).
Proof.
  intros Hx Hy Hz. set (ez := Z.min ex ey) in *.
  rewrite !shl_align_fst in Hz by lia.
  assert (Hb : forall m e, Z.pos (digits2_pos m) + e <= c -> ez <= e ->
               Z.pos m * 2 ^ (e - ez) < 2 ^ (c - ez)).
  { intros m e Hm He. pose proof (digits2_bounds m) as [_ Hhi].
    assert (0 < 2 ^ (e - ez)) by (apply pow2_pos; lia).
    apply Z.lt_le_trans with (2 ^ Z.pos (digits2_pos m) * 2 ^ (e - ez)); [nia|].
    rewrite <- Z.pow_add_r by lia. apply Z.pow_le_mono_r; lia. }
  pose proof (Hb mx ex Hx ltac:(lia)). pose proof (Hb my ey Hy ltac:(lia)).
  rewrite Z.pow_add_r, Z.pow_1_r by lia. lia.
Qed.

Lemma binary_normalize_below (z e c k : Z) :
  Z.abs z < 2 ^ (c - e + 1) -> c + 2 <= k -> -1073 <= k -> k <= 1024 ->
  below_sf k (binary_normalize prec emax z e false) = true.
Proof.
  intros Hz Hk Hlo Hhi. unfold binary_normalize.
  destruct z as [|m|m]; [reflexivity| |];
    (eapply rounded_below; [apply (binary_round_rounded _ m e) | | assumption | assumption];
     assert (Z.pos (digits2_pos m) <= c - e + 1) by (apply digits2_le; lia); lia).
Qed.

(** A sum or a difference of two numbers below 2^c is below 2^(c+2). *)
Lemma SF64add_below (c k : Z) (x y : spec_float) :
  below_sf c x = true -> below_sf c y = true ->
  c + 2 <= k -> -1073 <= k -> k <= 1024 ->
  below_sf k (SF64add x y) = true.
Proof.
  intros Hx Hy Hk Hlo Hhi.
  destruct x as [sx|sx| |sx mx ex], y as [sy|sy| |sy my ey]; try discriminate.
  - now destruct sx, sy.
  - apply (below_sf_mono c); [lia | exact Hy].
  - apply (below_sf_mono c); [lia | exact Hx].
  - cbn [below_sf] in Hx, Hy. apply Z.leb_le in Hx, Hy.
    unfold SF64add, SFadd. cbv zeta.
    apply (binary_normalize_below _ _ c); try assumption.
    apply (aligned_sum_below mx my ex ey c); try assumption.
    unfold cond_Zopp. change (IntDef.Z.min ex ey) with (Z.min ex ey).
    destruct sx, sy; lia.
Qed.

Lemma SF64sub_below (c k : Z) (x y : spec_float) :
  below_sf c x = true -> below_sf c y = true ->
  c + 2 <= k -> -1073 <= k -> k <= 1024 ->
  below_sf k (SF64sub x y) = true.
Proof.
  intros Hx Hy Hk Hlo Hhi.
  destruct x as [sx|sx| |sx mx ex], y as [sy|sy| |sy my ey]; try discriminate.
  - now destruct sx, sy.
  - apply (below_sf_mono c); [lia | exact Hy].
  - apply (below_sf_mono c); [lia | exact Hx].
  - cbn [below_sf] in Hx, Hy. apply Z.leb_le in Hx, Hy.
    unfold SF64sub, SFsub. cbv zeta.
    apply (binary_normalize_below _ _ c); try assumption.
    apply (aligned_sum_below mx my ex ey c); try assumption.
    unfold cond_Zopp. change (IntDef.Z.min ex ey) with (Z.min ex ey).
    destruct sx, sy; lia.
Qed.

(** The conversion of a positive integer. *)
Lemma binary_normalize_above (n : positive) :
  valid_binary (binary_normalize prec emax (Z.pos n) 0 false) = true
  /\ above_sf 1 (binary_normalize prec emax (Z.pos n) 0 false) = true.
Proof.
  cbn [binary_normalize].
  pose proof (binary_round_rounded false n 0) as H.
  destruct (binary_round prec emax false n 0) as [s|s| |s m e]; cbn [rounded] in H.
  - destruct H as [_ [H|H]]; lia.
  - destruct H as [-> _]. split; reflexivity.
  - contradiction.
  - destruct H as (-> & Hb & _ & Hlo). split; [exact Hb|].
    cbn [above_sf]. apply Z.leb_le. lia.
Qed.

Lemma Zdiv2_double (a : Z) : 2 * Z.div2 a <= a <= 2 * Z.div2 a + 1.
Proof. rewrite (Z.div2_odd a) at 2 3. destruct (Z.odd a); cbn [Z.b2z]; lia. Qed.

(** The square root of a number that is at least 1 is at least 1. *)
Lemma SF64sqrt_above (x : spec_float) :
  above_sf 1 x = true -> above_sf 1 (SF64sqrt x) = true.
Proof.
  destruct x as [s|[|]| |[|] m e]; try discriminate; [reflexivity|].
  cbn [above_sf]. intros Hx. apply Z.leb_le in Hx.
  unfold SF64sqrt, SFsqrt, SFsqrt_core_binary. cbn [Zdigits2].
  set (d := Z.pos (digits2_pos m)) in *.
  set (g := Z.div2 (d + e + 1)).
  set (e' := Z.min (fexp prec emax g) (Z.div2 e)).
  assert (He' : e' = Z.min (Z.max (g - 53) (-1074)) (Z.div2 e)) by reflexivity.
  pose proof (Zdiv2_double e) as He2. pose proof (Zdiv2_double (d + e + 1)) as Hg. fold g in Hg.
  set (sh := e - 2 * e').
  assert (Hsh : 0 <= sh) by lia.
  set (m' := match sh with Z.pos _ => Z.shiftl (Z.pos m) sh | 0 => Z.pos m | Z.neg _ => 0 end).
  assert (Hm' : m' = Z.pos m * 2 ^ sh).
  { unfold m'. destruct sh as [|p|p] eqn:E; [lia| |lia].
    now rewrite Z.shiftl_mul_pow2 by lia. }
  clearbody m'.
  pose proof (digits2_bounds m) as [Hmlo Hmhi]. fold d in Hmlo, Hmhi.
  assert (Hp : 0 < 2 ^ sh) by (apply pow2_pos; lia).
  assert (Hm'lo : 2 ^ (d + sh - 1) <= m').
  { rewrite Hm'. replace (d + sh - 1) with ((d - 1) + sh) by lia.
    rewrite Z.pow_add_r by lia. nia. }
  assert (Hpd : 0 < 2 ^ (d + sh - 1)) by (apply pow2_pos; lia).
  pose proof (Z.sqrtrem_spec m' ltac:(lia)) as Hs.
  destruct (Z.sqrtrem m') as [q r]. destruct Hs as [Hq Hr].
  set (l := if (r =? 0) then loc_Exact else loc_Inexact (if r <=? q then Lt else Gt)).
  set (u := g - e').
  assert (Hu : 1 <= u /\ 2 * u <= d + sh + 1) by lia.
  assert (Hqlo : 2 ^ (u - 1) <= q).
  { destruct (Z_le_gt_dec (2 ^ (u - 1)) q) as [|Hlt]; [assumption|exfalso].
    assert (Hsq : (q + 1) * (q + 1) <= 2 ^ (u - 1) * 2 ^ (u - 1)) by nia.
    rewrite <- Z.pow_add_r in Hsq by lia.
    assert (Hle : 2 ^ (u - 1 + (u - 1)) <= 2 ^ (d + sh - 1)) by (apply Z.pow_le_mono_r; lia).
    nia. }
  assert (Hpu : 0 < 2 ^ (u - 1)) by (apply pow2_pos; lia).
  destruct q as [|q|q]; [lia| |lia].
  assert (Hdq : u <= Z.pos (digits2_pos q)).
  { assert (Hlt : u - 1 < Z.pos (digits2_pos q)) by (apply digits2_ge; lia). lia. }
  pose proof (binary_round_aux_rounded false (Z.pos q) e' l) as H.
  cbn [Zdigits2] in H.
  specialize (H ltac:(lia)).
  change (fexp prec emax ?z) with (Z.max (z - 53) (-1074)) in H.
  specialize (H ltac:(lia)).
  destruct (binary_round_aux prec emax false (Z.pos q) e' l) as [s'|s'| |s' mz ez];
    cbn [rounded above_sf] in *.
  - destruct H as [_ [H|H]]; lia.
  - now destruct H as [-> _].
  - contradiction.
  - destruct H as (-> & _ & _ & Hlo). apply Z.leb_le. lia.
Qed.

(** A quotient is below 2^(a-b+2) when the dividend is below 2^a and the
    divisor at least 2^(b-1). *)
Lemma SF64div_below (a b k : Z) (x y : spec_float) :
  below_sf a x = true -> above_sf b y = true ->
  a - b + 2 <= k -> -1073 <= k -> k <= 1024 ->
  below_sf k (SF64div x y) = true.
Proof.
  intros Hx Hy Hk Hlo Hhi.
  destruct x as [sx|sx| |sx mx ex], y as [sy|[|]| |[|] my ey]; try discriminate;
    try reflexivity.
  cbn [below_sf above_sf] in Hx, Hy. apply Z.leb_le in Hx, Hy.
  unfold SF64div, SFdiv, SFdiv_core_binary. cbn [Zdigits2].
  set (d1 := Z.pos (digits2_pos mx)) in *. set (d2 := Z.pos (digits2_pos my)) in *.
  set (g := d1 + ex - (d2 + ey)).
  set (e' := Z.min (fexp prec emax g) (ex - ey)).
  assert (He' : e' = Z.min (Z.max (g - 53) (-1074)) (ex - ey)) by reflexivity.
  set (sh := ex - ey - e').
  assert (Hsh : 0 <= sh) by lia.
  set (m' := match sh with Z.pos _ => Z.shiftl (Z.pos mx) sh | 0 => Z.pos mx | Z.neg _ => 0 end).
  assert (Hm' : m' = Z.pos mx * 2 ^ sh).
  { unfold m'. destruct sh as [|p|p] eqn:E; [lia| |lia].
    now rewrite Z.shiftl_mul_pow2 by lia. }
  clearbody m'.
  pose proof (digits2_bounds mx) as [Hxlo Hxhi]. fold d1 in Hxlo, Hxhi.
  pose proof (digits2_bounds my) as [Hylo Hyhi]. fold d2 in Hylo, Hyhi.
  assert (Hp : 0 < 2 ^ sh) by (apply pow2_pos; lia).
  assert (Hm'lo : 2 ^ (d1 + sh - 1) <= m').
  { rewrite Hm'. replace (d1 + sh - 1) with ((d1 - 1) + sh) by lia.
    rewrite Z.pow_add_r by lia. nia. }
  assert (Hm'hi : m' < 2 ^ (d1 + sh)).
  { rewrite Hm', Z.pow_add_r by lia. nia. }
  pose proof (Z_div_mod m' (Z.pos my) ltac:(lia)) as Hdiv.
  destruct (Z.div_eucl m' (Z.pos my)) as [q r]. destruct Hdiv as [Hq Hr].
  set (l := new_location (Z.pos my) r).
  assert (Hq0 : 0 <= q) by nia.
  assert (Hp2 : 0 < 2 ^ (d2 - 1)) by (apply pow2_pos; lia).
  (* the quotient has at most d1 + sh - d2 + 1 digits *)
  assert (Hqhi : 0 < q -> Zdigits2 q <= d1 + sh - d2 + 1).
  { intros Hqp. destruct q as [|q|q]; [lia| |lia]. cbn [Zdigits2].
    destruct (Z_lt_le_dec (d1 + sh - d2 + 1) 0) as [Hneg|Hnn].
    - exfalso. assert (Hle : 2 ^ (d1 + sh) <= 2 ^ (d2 - 1)) by (apply Z.pow_le_mono_r; lia). nia.
    - apply digits2_le.
      destruct (Z_lt_le_dec (Z.pos q) (2 ^ (d1 + sh - d2 + 1))) as [|Hge]; [assumption|exfalso].
      assert (Hmul : 2 ^ (d1 + sh - d2 + 1) * 2 ^ (d2 - 1) <= Z.pos q * Z.pos my) by nia.
      rewrite <- Z.pow_add_r in Hmul by lia.
      replace (d1 + sh - d2 + 1 + (d2 - 1)) with (d1 + sh) in Hmul by lia. nia. }
  (* and at least d1 + sh - d2 *)
  assert (Hqlo : 0 < q -> d1 + sh - d2 <= Zdigits2 q).
  { intros Hqp. destruct q as [|q|q]; [lia| |lia]. cbn [Zdigits2].
    destruct (Z_le_gt_dec (d1 + sh - d2) 0) as [|Hpos]; [lia|].
    assert (Hlt' : d1 + sh - d2 - 1 < Z.pos (digits2_pos q)); [|lia].
    apply digits2_ge.
    destruct (Z_le_gt_dec (2 ^ (d1 + sh - d2 - 1)) (Z.pos q)) as [|Hlt]; [assumption|exfalso].
    assert (Hpq : 0 < 2 ^ (d1 + sh - d2 - 1)) by (apply pow2_pos; lia).
    assert (Hmul : (Z.pos q + 1) * Z.pos my < 2 ^ (d1 + sh - d2 - 1) * 2 ^ d2) by nia.
    rewrite <- Z.pow_add_r in Hmul by lia.
    replace (d1 + sh - d2 - 1 + d2) with (d1 + sh - 1) in Hmul by lia. nia. }
  assert (Hqz : q = 0 -> e' <= -1074).
  { intros ->.
    assert (Hlt : d1 + sh - 1 < d2); [|lia].
    apply (Z.pow_lt_mono_r_iff 2); lia. }
  pose proof (binary_round_aux_rounded (xorb sx false) q e' l Hq0) as H.
  change (fexp prec emax ?z) with (Z.max (z - 53) (-1074)) in H.
  assert (HP : e' <= Z.max (Zdigits2 q + e' - 53) (-1074)).
  { destruct (Z.eq_dec q 0) as [Hz|Hnz]; [specialize (Hqz Hz); lia|].
    specialize (Hqlo ltac:(lia)). lia. }
  specialize (H HP).
  eapply rounded_below; [exact H| |assumption|assumption].
  destruct (Z.eq_dec q 0) as [Hz|Hnz].
  - specialize (Hqz Hz). subst q. cbn [Zdigits2]. lia.
  - specialize (Hqhi ltac:(lia)). lia.
Qed.

Lemma mul_below (a b k : Z) (x y : float) :
  below a x = true -> below b y = true ->
  a + b + 1 <= k -> -1073 <= k -> k <= 1024 ->
  below k (x * y) = true.
Proof.
  unfold below. intros Hx Hy Hk Hlo Hhi. rewrite mul_spec.
  apply (SF64mul_below a b); auto using Prim2SF_valid.
Qed.

Lemma add_below (c k : Z) (x y : float) :
  below c x = true -> below c y = true ->
  c + 2 <= k -> -1073 <= k -> k <= 1024 ->
  below k (x + y) = true.
Proof.
  unfold below. intros Hx Hy Hk Hlo Hhi. rewrite add_spec.
  now apply (SF64add_below c).
Qed.

Lemma sub_below (c k : Z) (x y : float) :
  below c x = true -> below c y = true ->
  c + 2 <= k -> -1073 <= k -> k <= 1024 ->
  below k (x - y) = true.
Proof.
  unfold below. intros Hx Hy Hk Hlo Hhi. rewrite sub_spec.
  now apply (SF64sub_below c).
Qed.

(** One over the square root of a positive integer. *)
Lemma factor_pos_below (n : positive) :
  below 2 (1 / sqrt (SF2Prim (binary_normalize prec emax (Z.pos n) 0 false))) = true.
Proof.
  unfold below. rewrite div_spec, sqrt_spec.
  destruct (binary_normalize_above n) as [Hv Ha].
  rewrite Prim2SF_SF2Prim by exact Hv.
  apply (SF64div_below 1 1); try lia; [reflexivity|].
  now apply SF64sqrt_above.
Qed.

End Magnitudes.

(** ** The loops of the Go transform *)

Section GoLoops.

Import Go.

Lemma split_step_Done (arr : list Complex) i a0 a1 x y :
  arr !! (2 * i) = Some x -> arr !! (2 * i + 1) = Some y ->
  split_step arr i (a0, a1) = Done (a0 ++ [x], a1 ++ [y]).
Proof.
  intros Hx Hy. unfold split_step.
  now rewrite (index_Done _ _ _ Hx), bind_Done, (index_Done _ _ _ Hy), bind_Done.
Qed.

Lemma combine_step_Done (a0 a1 : list Complex) wn h i arr w p y :
  a0 !! i = Some p -> a1 !! i = Some y -> i + h < length arr ->
  combine_step a0 a1 wn h i (arr, w)
    = Done (<[i + h := Sub p (Mul w y)]> (<[i := Add p (Mul w y)]> arr), Mul w wn).
Proof.
  intros Hp Hy Hlt. unfold combine_step.
  rewrite (index_Done _ _ _ Hp), bind_Done, (index_Done _ _ _ Hy), bind_Done.
  rewrite assign_Done by lia. rewrite bind_Done.
  rewrite assign_Done by (rewrite length_insert; lia). now rewrite bind_Done.
Qed.

Lemma scale_step_Done (factor : float) (arr : list Complex) i x :
  arr !! i = Some x ->
  scale_step factor i arr = Done (<[i := MulScalar x factor]> arr).
Proof.
  intros Hx. unfold scale_step. rewrite (index_Done _ _ _ Hx), bind_Done.
  apply assign_Done. now apply lookup_lt_Some in Hx.
Qed.

(** The first loop appends the elements at even and at odd positions. *)
Lemma split_loop (arr : list Complex) c : forall i a0 a1,
  2 * (i + c) <= length arr ->
  exists e o, for_from i c (split_step arr) (a0, a1) = Done (a0 ++ e, a1 ++ o)
    /\ length e = c /\ length o = c
    /\ forall k, k < c ->
         e !! k = arr !! (2 * (i + k)) /\ o !! k = arr !! (2 * (i + k) + 1).
Proof.
  induction c as [|c IH]; intros i a0 a1 Hlen.
  - exists [], []. simpl. rewrite !app_nil_r. repeat split; try done; lia.
  - destruct (index_lt arr (2 * i)) as (x & Hx & Ex); [lia|].
    destruct (index_lt arr (2 * i + 1)) as (y & Hy & Ey); [lia|].
    destruct (IH (S i) (a0 ++ [x]) (a1 ++ [y])) as (e & o & E & Le & Lo & Hk); [lia|].
    exists (x :: e), (y :: o).
    cbn [for_from]. rewrite (split_step_Done arr i a0 a1 x y Hx Hy), bind_Done.
    rewrite E, <- !app_assoc. simpl. repeat split; try lia.
    + destruct k as [|k]; simpl; [now rewrite Nat.add_0_r|].
      replace (i + S k) with (S i + k) by lia. apply Hk; lia.
    + destruct k as [|k]; simpl; [now rewrite Nat.add_0_r|].
      replace (i + S k) with (S i + k) by lia. apply Hk; lia.
Qed.

(** The second loop: iteration [k] writes positions [k] and [k + h] and no
    later iteration touches them; [w] is multiplied by [wn] once per iteration. *)
Lemma combine_loop (a0 a1 : list Complex) wn h c : forall i arr w,
  i + c <= h -> length a0 = h -> length a1 = h -> 2 * h <= length arr ->
  exists arr',
    for_from i c (combine_step a0 a1 wn h) (arr, w)
      = Done (arr', Nat.iter c (fun w => Mul w wn) w)
    /\ length arr' = length arr
    /\ (forall k, i <= k < i + c -> exists p y,
          a0 !! k = Some p /\ a1 !! k = Some y
          /\ arr' !! k = Some (Add p (Mul (Nat.iter (k - i) (fun w => Mul w wn) w) y))
          /\ arr' !! (k + h)
               = Some (Sub p (Mul (Nat.iter (k - i) (fun w => Mul w wn) w) y)))
    /\ (forall j, ~ (i <= j < i + c) -> ~ (i + h <= j < i + c + h) ->
          arr' !! j = arr !! j).
Proof.
  induction c as [|c IH]; intros i arr w Hi H0 H1 Harr.
  - exists arr. simpl. repeat split; try done. intros k Hk; lia.
  - destruct (index_lt a0 i) as (p & Hp & Ep); [lia|].
    destruct (index_lt a1 i) as (y & Hy & Ey); [lia|].
    set (arr1 := <[i := Add p (Mul w y)]> arr).
    set (arr2 := <[i + h := Sub p (Mul w y)]> arr1).
    assert (L1 : length arr1 = length arr) by apply length_insert.
    assert (L2 : length arr2 = length arr) by (unfold arr2; now rewrite length_insert).
    destruct (IH (S i) arr2 (Mul w wn)) as (arr' & E & L & Hk & Hframe); try lia.
    exists arr'.
    cbn [for_from].
    rewrite (combine_step_Done a0 a1 wn h i arr w p y Hp Hy) by lia.
    rewrite bind_Done. fold arr1. fold arr2. rewrite E, Nat.iter_succ_r.
    split; [done|]. split; [lia|]. split.
    + intros k Hkr. destruct (decide (k = i)) as [->|Hne].
      * exists p, y. rewrite Nat.sub_diag. simpl. repeat split; try done.
        -- rewrite Hframe by lia. unfold arr2. rewrite list_lookup_insert_ne by lia.
           unfold arr1. apply list_lookup_insert_eq. lia.
        -- rewrite Hframe by lia. unfold arr2. apply list_lookup_insert_eq. lia.
      * destruct (Hk k) as (p' & y' & A0 & A1 & Ak & Akh); [lia|].
        exists p', y'. replace (k - i) with (S (k - S i)) by lia.
        rewrite Nat.iter_succ_r. done.
    + intros j Hj1 Hj2. rewrite Hframe by lia.
      unfold arr2, arr1. rewrite !list_lookup_insert_ne by lia. done.
Qed.

(** The loop of [FFT] rewrites the slice element by element. *)
Lemma scale_loop (factor : float) (rest : list Complex) : forall done,
  for_from (length done) (length rest) (scale_step factor) (done ++ rest)
    = Done (done ++ map (fun c => MulScalar c factor) rest).
Proof.
  induction rest as [|x rest IH]; intros done0; simpl; [done|].
  rewrite (scale_step_Done factor _ _ x) by (now apply list_lookup_middle).
  rewrite bind_Done.
  rewrite insert_app_r_alt by lia. rewrite Nat.sub_diag. simpl.
  specialize (IH (done0 ++ [MulScalar x factor])).
  rewrite length_app in IH. simpl in IH. rewrite Nat.add_1_r, <- !app_assoc in IH.
  exact IH.
Qed.

End GoLoops.

(** ** The recursion of the Go transform *)

Section GoFacts.

Import Go.

Variables Cos Sin : float -> float.

Lemma fft_S fuel (arr : list Complex) :
  length arr <> 1 ->
  fft Cos Sin (S fuel) arr =
    ('(a0, a1) ← for_range (length arr / 2) (split_step arr) ([], []);
     a0 ← fft Cos Sin fuel a0;
     a1 ← fft Cos Sin fuel a1;
     '(arr, _) ← for_range (length arr / 2)
        (combine_step a0 a1 (twiddle_base Cos Sin (length arr)) (length arr / 2))
        (arr, mkComplex 1 0);
     Done arr).
Proof.
  intros H. cbn [fft]. apply Nat.eqb_neq in H. now rewrite H.
Qed.

Lemma fft_one fuel (arr : list Complex) :
  length arr = 1 -> fft Cos Sin (S fuel) arr = Done arr.
Proof. intros H. cbn [fft]. now rewrite H. Qed.

Lemma split_range (arr : list Complex) :
  exists e o, for_range (length arr / 2) (split_step arr) ([], []) = Done (e, o)
    /\ length e = length arr / 2 /\ length o = length arr / 2
    /\ forall k, k < length arr / 2 ->
         e !! k = arr !! (2 * k) /\ o !! k = arr !! (2 * k + 1).
Proof.
  destruct (split_loop arr (length arr / 2) 0 [] []) as (e & o & E & Le & Lo & Hk).
  - pose proof (Nat.Div0.mul_div_le (length arr) 2). lia.
  - exists e, o. unfold for_range. simpl in E. auto.
Qed.

Lemma combine_range (a0 a1 arr : list Complex) wn c :
  c <= length arr / 2 -> length a0 = length arr / 2 -> length a1 = length arr / 2 ->
  exists arr',
    for_range c (combine_step a0 a1 wn (length arr / 2)) (arr, mkComplex 1 0)
      = Done (arr', twiddle_power wn c)
    /\ length arr' = length arr
    /\ (forall k, k < c -> exists p y,
          a0 !! k = Some p /\ a1 !! k = Some y
          /\ arr' !! k = Some (Add p (Mul (twiddle_power wn k) y))
          /\ arr' !! (k + length arr / 2) = Some (Sub p (Mul (twiddle_power wn k) y))).
Proof.
  intros Hc H0 H1.
  destruct (combine_loop a0 a1 wn (length arr / 2) c 0 arr (mkComplex 1 0))
    as (arr' & C & L & Hk & _); try lia.
  { pose proof (Nat.Div0.mul_div_le (length arr) 2). lia. }
  exists arr'. split; [exact C|]. split; [exact L|].
  intros k Hlt. destruct (Hk k) as (p & y & A0 & A1 & Ak & Akh); [lia|].
  rewrite Nat.sub_0_r in Ak, Akh. exists p, y. auto.
Qed.

(** A call that returns leaves the length of its slice unchanged. *)
Lemma fft_length fuel : forall (arr out : list Complex),
  fft Cos Sin fuel arr = Done out -> length out = length arr.
Proof.
  induction fuel as [|fuel IH]; intros arr out H; [discriminate|].
  destruct (decide (length arr = 1)) as [E1|N1].
  - rewrite fft_one in H by done. now inversion H.
  - rewrite fft_S in H by done.
    destruct (split_range arr) as (e & o & E & Le & Lo & _).
    rewrite E, bind_Done in H.
    apply bind_Done_inv in H as (a0 & F0 & H).
    apply bind_Done_inv in H as (a1 & F1 & H).
    apply IH in F0, F1.
    destruct (combine_range a0 a1 arr (twiddle_base Cos Sin (length arr)) (length arr / 2))
      as (arr' & C & L & _); try lia.
    rewrite C, bind_Done in H. simpl in H. inversion H; subst. exact L.
Qed.

(** On the empty slice every call recurses on the empty slice again. *)
Lemma fft_nil fuel : fft Cos Sin fuel [] = OutOfFuel.
Proof.
  induction fuel as [|fuel IH]; [done|].
  rewrite fft_S by (simpl; lia). simpl. now rewrite IH.
Qed.

(** A non-empty slice is transformed within a call depth logarithmic in its
    length. *)
Lemma fft_total fuel : forall (arr : list Complex),
  1 <= length arr < 2 ^ fuel -> exists out, fft Cos Sin fuel arr = Done out.
Proof.
  induction fuel as [|fuel IH]; intros arr [Hlo Hhi]; [simpl in Hhi; lia|].
  destruct (decide (length arr = 1)) as [E1|N1].
  - exists arr. now apply fft_one.
  - rewrite fft_S by done.
    destruct (split_range arr) as (e & o & E & Le & Lo & _).
    assert (Hh : 1 <= length arr / 2 < 2 ^ fuel).
    { split.
      - apply Nat.div_le_lower_bound; lia.
      - apply Nat.Div0.div_lt_upper_bound. rewrite Nat.pow_succ_r' in Hhi. lia. }
    destruct (IH e) as (a0 & F0); [lia|].
    destruct (IH o) as (a1 & F1); [lia|].
    pose proof (fft_length _ _ _ F0). pose proof (fft_length _ _ _ F1).
    destruct (combine_range a0 a1 arr (twiddle_base Cos Sin (length arr)) (length arr / 2))
      as (arr' & C & L & _); try lia.
    exists arr'. rewrite E, bind_Done, F0, bind_Done, F1, bind_Done.
    now rewrite C, bind_Done.
Qed.

(** Every index the transform reads or writes is in range. *)
Lemma fft_no_panic fuel : forall (arr : list Complex), fft Cos Sin fuel arr <> Panic.
Proof.
  induction fuel as [|fuel IH]; intros arr; [done|].
  destruct (decide (length arr = 1)) as [E1|N1].
  - now rewrite fft_one.
  - rewrite fft_S by done.
    destruct (split_range arr) as (e & o & E & Le & Lo & _).
    rewrite E, bind_Done.
    destruct (fft Cos Sin fuel e) as [a0| |] eqn:F0; [|now destruct (IH e)|done].
    destruct (fft Cos Sin fuel o) as [a1| |] eqn:F1; [|now destruct (IH o)|done].
    apply fft_length in F0, F1.
    destruct (combine_range a0 a1 arr (twiddle_base Cos Sin (length arr)) (length arr / 2))
      as (arr' & C & L & _); try lia.
    now rewrite !bind_Done, C, bind_Done.
Qed.

(** The loop of [FFT] after a returning [fft]. *)
Lemma FFT_scale fuel (arr out : list Complex) :
  fft Cos Sin fuel arr = Done out ->
  FFT Cos Sin fuel arr
    = Done (map (fun c => MulScalar c (1 / sqrt (float64 (length arr)))%float) out).
Proof.
  intros H. unfold FFT. rewrite H, bind_Done.
  rewrite (fft_length _ _ _ H). rewrite <- (fft_length _ _ _ H) at 1.
  unfold for_range. apply (scale_loop _ out []).
Qed.

Lemma FFT_Done_inv fuel (arr res : list Complex) :
  FFT Cos Sin fuel arr = Done res ->
  exists out, fft Cos Sin fuel arr = Done out
    /\ res = map (fun c => MulScalar c (1 / sqrt (float64 (length arr)))%float) out.
Proof.
  intros H. pose proof H as H'. unfold FFT in H'.
  apply bind_Done_inv in H' as (out & F & _).
  exists out. split; [exact F|].
  rewrite (FFT_scale _ _ _ F) in H. now inversion H.
Qed.

Lemma MulScalar_one (c : Complex) : MulScalar c 1 = c.
Proof. destruct c as [re im]. unfold MulScalar. simpl. now rewrite !mul_one_r. Qed.

Lemma Mul_one_finite (wn : Complex) :
  finite (Real wn) = true -> finite (Imag wn) = true ->
  finite (Real (Mul (mkComplex 1 0) wn)) = true
  /\ finite (Imag (Mul (mkComplex 1 0) wn)) = true.
Proof.
  intros Hr Hi. destruct wn as [c s]. simpl in *. rewrite !mul_one_l. split.
  - apply sub_zero_finite; [done|]. now apply mul_zero_l.
  - apply add_zero_finite; [done|]. now apply mul_zero_l.
Qed.

Lemma Mul_zero_r (w : Complex) :
  finite (Real w) = true -> finite (Imag w) = true ->
  signed_zero (Real (Mul w (mkComplex 0 0)))
  /\ signed_zero (Imag (Mul w (mkComplex 0 0))).
Proof.
  intros Hr Hi. destruct w as [re im]. simpl in *. split.
  - apply zero_sub_zero; now apply mul_zero_r.
  - apply zero_add_zero; now apply mul_zero_r.
Qed.

(** Two copies of the largest finite number: their sum overflows. *)
Lemma FFT_max_pair (fuel : nat) :
  FFT Cos Sin (S (S fuel)) [mkComplex MaxFloat64 0; mkComplex MaxFloat64 0]
    = Done [mkComplex infinity 0; mkComplex 0 0].
Proof.
  erewrite FFT_scale.
  2:{ rewrite fft_S by (simpl; lia). cbn -[fft]. rewrite !fft_one by done.
      cbn. reflexivity. }
  vm_compute. reflexivity.
Qed.

End GoFacts.

(** ** Magnitudes through the Go transform *)

Lemma below_mono (a k : Z) (x : float) :
  (a <= k)%Z -> below a x = true -> below k x = true.
Proof. unfold below. apply below_sf_mono. Qed.

Lemma below_finite (k : Z) (x : float) : below k x = true -> finite x = true.
Proof. unfold below, finite. now destruct (Prim2SF x). Qed.

(** The factor 1/sqrt(n) of a length n >= 1 is below 4 in magnitude (it is at
    most 1; the bound is what the rounding lemmas give). *)
Lemma factor_below (n : nat) : 1 <= n -> below 2 (1 / sqrt (float64 n)) = true.
Proof.
  intros Hn. unfold float64.
  destruct (Z.of_nat n) as [|p|p] eqn:E; [lia| |lia].
  apply factor_pos_below.
Qed.

Section GoBounds.

Import Go.

Variables Cos Sin : float -> float.

Lemma below_complex_iff (k : Z) (c : Complex) :
  below_complex k c = true <-> below k (Real c) = true /\ below k (Imag c) = true.
Proof. unfold below_complex. apply andb_true_iff. Qed.

Lemma below_complex_mono (a k : Z) (c : Complex) :
  (a <= k)%Z -> below_complex a c = true -> below_complex k c = true.
Proof.
  intros Hak. rewrite !below_complex_iff. intros [Hr Hi].
  split; now apply (below_mono a).
Qed.

Lemma all_below_lookup (k : Z) (arr : list Complex) :
  all_below k arr = true
  <-> forall i c, arr !! i = Some c -> below_complex k c = true.
Proof.
  unfold all_below. rewrite forallb_forall. split.
  - intros H i c Hi. apply H, list_elem_of_In. now apply list_elem_of_lookup_2 with i.
  - intros H c Hin. apply list_elem_of_In, list_elem_of_lookup_1 in Hin as [i Hi].
    now apply (H i).
Qed.

Lemma all_below_finite (k : Z) (arr : list Complex) :
  all_below k arr = true -> all_finite arr = true.
Proof.
  unfold all_below, all_finite. rewrite !forallb_forall. intros H c Hin.
  apply H, below_complex_iff in Hin as [Hr Hi].
  apply andb_true_iff. split; now apply (below_finite k).
Qed.

(** A product with a factor below 2 gains at most four bits, a sum or a
    difference two, a product with a scalar the bits of the scalar and one. *)
Lemma Mul_below (Y : Z) (w y : Complex) :
  below_complex 1 w = true -> below_complex Y y = true ->
  (-1075 <= Y)%Z -> (Y + 4 <= 1024)%Z ->
  below_complex (Y + 4) (Mul w y) = true.
Proof.
  rewrite !below_complex_iff. intros [Wr Wi] [Yr Yi] Hlo Hhi. unfold Mul. cbn [Real Imag].
  split.
  - apply (sub_below (Y + 2)); try lia; apply (mul_below 1 Y); auto; lia.
  - apply (add_below (Y + 2)); try lia; apply (mul_below 1 Y); auto; lia.
Qed.

Lemma Add_below (c : Z) (a b : Complex) :
  below_complex c a = true -> below_complex c b = true ->
  (-1075 <= c)%Z -> (c + 2 <= 1024)%Z ->
  below_complex (c + 2) (Add a b) = true.
Proof.
  rewrite !below_complex_iff. intros [Ar Ai] [Br Bi] Hlo Hhi. unfold Add. cbn [Real Imag].
  split; apply (add_below c); auto; lia.
Qed.

Lemma Sub_below (c : Z) (a b : Complex) :
  below_complex c a = true -> below_complex c b = true ->
  (-1075 <= c)%Z -> (c + 2 <= 1024)%Z ->
  below_complex (c + 2) (Sub a b) = true.
Proof.
  rewrite !below_complex_iff. intros [Ar Ai] [Br Bi] Hlo Hhi. unfold Sub. cbn [Real Imag].
  split; apply (sub_below c); auto; lia.
Qed.

Lemma MulScalar_below (a b : Z) (c : Complex) (factor : float) :
  below_complex a c = true -> below b factor = true ->
  (-1074 <= a + b)%Z -> (a + b + 1 <= 1024)%Z ->
  below_complex (a + b + 1) (MulScalar c factor) = true.
Proof.
  rewrite !below_complex_iff. intros [Cr Ci] Hf Hlo Hhi. unfold MulScalar. cbn [Real Imag].
  split; apply (mul_below a b); auto; lia.
Qed.

Lemma twiddles_below_le (n n' : nat) :
  n' <= n -> twiddles_below Cos Sin n -> twiddles_below Cos Sin n'.
Proof. intros Hn H m i Hm Hi. apply H; lia. Qed.

(** Each level of the recursion adds at most six bits to the magnitudes. *)
Lemma fft_below fuel : forall (arr out : list Complex) (B : Z),
  fft Cos Sin fuel arr = Done out ->
  all_below B arr = true -> (-1073 <= B)%Z -> (B + 6 * Z.of_nat fuel <= 1024)%Z ->
  twiddles_below Cos Sin (length arr) ->
  all_below (B + 6 * Z.of_nat fuel) out = true.
Proof.
  induction fuel as [|fuel IH]; intros arr out B H HB Hlo Hhi Htw; [discriminate|].
  apply all_below_lookup. intros j c Hj.
  destruct (decide (length arr = 1)) as [E1|N1].
  - rewrite fft_one in H by done. inversion H; subst out.
    apply (below_complex_mono B); [lia|].
    now apply (proj1 (all_below_lookup B arr) HB j).
  - rewrite fft_S in H by done.
    destruct (split_range arr) as (e & o & E & Le & Lo & Hsel).
    rewrite E, bind_Done in H.
    apply bind_Done_inv in H as (a0 & F0 & H).
    apply bind_Done_inv in H as (a1 & F1 & H).
    pose proof (fft_length Cos Sin _ _ _ F0) as L0.
    pose proof (fft_length Cos Sin _ _ _ F1) as L1.
    set (h := length arr / 2) in *.
    assert (Hh : 2 * h <= length arr) by (apply Nat.Div0.mul_div_le).
    set (Y := (B + 6 * Z.of_nat fuel)%Z).
    assert (He : all_below B e = true /\ all_below B o = true).
    { split; apply all_below_lookup; intros i x Hi;
        pose proof (lookup_lt_Some _ _ _ Hi) as Hlt;
        destruct (Hsel i) as [Hev Hod]; try lia;
        [rewrite Hev in Hi | rewrite Hod in Hi];
        now apply (proj1 (all_below_lookup B arr) HB _ _ Hi). }
    destruct He as [He Ho].
    assert (Htw' : twiddles_below Cos Sin h) by (apply (twiddles_below_le (length arr)); [lia|done]).
    assert (H0 : all_below Y a0 = true)
      by (apply (IH e a0 B F0 He); [lia | lia | now rewrite Le]).
    assert (H1 : all_below Y a1 = true)
      by (apply (IH o a1 B F1 Ho); [lia | lia | now rewrite Lo]).
    destruct (combine_loop a0 a1 (twiddle_base Cos Sin (length arr)) h h 0 arr (mkComplex 1 0))
      as (arr' & C & L & Hk & Hframe); try lia.
    unfold for_range in H. rewrite C, bind_Done in H. inversion H; subst out. clear H.
    pose proof (lookup_lt_Some _ _ _ Hj) as Hjlt. rewrite L in Hjlt.
    replace (B + 6 * Z.of_nat (S fuel))%Z with (Y + 4 + 2)%Z by lia.
    assert (Hpair : forall k, k < h -> exists p y,
              below_complex (Y + 4) p = true
              /\ below_complex (Y + 4)
                   (Mul (twiddle_power (twiddle_base Cos Sin (length arr)) k) y) = true
              /\ arr' !! k
                 = Some (Add p (Mul (twiddle_power (twiddle_base Cos Sin (length arr)) k) y))
              /\ arr' !! (k + h)
                 = Some (Sub p (Mul (twiddle_power (twiddle_base Cos Sin (length arr)) k) y))).
    { intros k Hkh. destruct (Hk k) as (p & y & A0 & A1 & Ak & Akh); [lia|].
      rewrite Nat.sub_0_r in Ak, Akh. exists p, y.
      split; [|split; [|split; [exact Ak|exact Akh]]].
      - apply (below_complex_mono Y); [lia|].
        now apply (proj1 (all_below_lookup Y a0) H0 k).
      - apply Mul_below; try lia.
        + apply Htw; lia.
        + now apply (proj1 (all_below_lookup Y a1) H1 k). }
    destruct (decide (j < h)) as [Hlow|Hnlow].
    + destruct (Hpair j Hlow) as (p & y & Bp & Bq & Ak & _).
      rewrite Ak in Hj. inversion Hj; subst c. apply Add_below; auto; lia.
    + destruct (decide (j < h + h)) as [Hmid|Hhigh].
      * destruct (Hpair (j - h)) as (p & y & Bp & Bq & _ & Akh); [lia|].
        replace (j - h + h) with j in Akh by lia.
        rewrite Akh in Hj. inversion Hj; subst c. apply Sub_below; auto; lia.
      * rewrite Hframe in Hj by lia.
        apply (below_complex_mono B); [lia|].
        now apply (proj1 (all_below_lookup B arr) HB j).
Qed.

End GoBounds.

(** ** The Go transform: the properties of the design document *)

Section GoClaims.

Import Go.

Variables Cos Sin : float -> float.

(** C1: on a slice of power-of-two length n = 2^k, [FFT] returns what the
    unnormalized [fft] returns with every element multiplied by the one scalar
    1/sqrt(n), once.  The unnormalized result carries no factor at any level
    of the recursion: on one element it is the element, and on 2h elements its
    entries at i and i + h are Add(a0[i], Mul(wn^i, a1[i])) and
    Sub(a0[i], Mul(wn^i, a1[i])), where a0 and a1 are what [fft] itself, the
    unnormalized transform, returns on the elements at even and at odd
    positions. *)
Theorem FFT_normalizes_once (k fuel : nat) (arr : list Complex) :
  length arr = 2 ^ k -> k < fuel ->
  exists out,
    fft Cos Sin fuel arr = Done out
    /\ length out = length arr
    /\ FFT Cos Sin fuel arr
         = Done (map (fun c => MulScalar c (1 / sqrt (float64 (2 ^ k)))%float) out)
    /\ (k = 0 -> out = arr)
    /\ (1 <= k ->
        exists even odd a0 a1,
          length even = 2 ^ (k - 1) /\ length odd = 2 ^ (k - 1)
          /\ (forall i, i < 2 ^ (k - 1) ->
                even !! i = arr !! (2 * i) /\ odd !! i = arr !! (2 * i + 1))
          /\ fft Cos Sin (fuel - 1) even = Done a0
          /\ fft Cos Sin (fuel - 1) odd = Done a1
          /\ (forall i, i < 2 ^ (k - 1) -> exists p y,
                a0 !! i = Some p /\ a1 !! i = Some y
                /\ out !! i
                     = Some (Add p (Mul (twiddle_power (twiddle_base Cos Sin (2 ^ k)) i) y))
                /\ out !! (i + 2 ^ (k - 1))
                     = Some (Sub p (Mul (twiddle_power (twiddle_base Cos Sin (2 ^ k)) i) y)))).
Proof.
  intros Hlen Hk.
  assert (Hpos : 1 <= 2 ^ k) by (pose proof (Nat.pow_nonzero 2 k); lia).
  destruct (fft_total Cos Sin fuel arr) as (out & F).
  { rewrite Hlen. split; [lia|]. apply Nat.pow_lt_mono_r; lia. }
  exists out. split; [exact F|]. split; [now apply fft_length in F|].
  split; [rewrite <- Hlen; now apply FFT_scale|].
  destruct fuel as [|fuel']; [lia|]. replace (S fuel' - 1) with fuel' by lia.
  split.
  - intros ->. rewrite fft_one in F by exact Hlen. now inversion F.
  - intros Hk1.
    assert (Hpow : 2 ^ k = 2 * 2 ^ (k - 1)).
    { rewrite <- Nat.pow_succ_r'. f_equal. lia. }
    assert (Hh : 1 <= 2 ^ (k - 1)) by (pose proof (Nat.pow_nonzero 2 (k - 1)); lia).
    assert (Hhalf : length arr / 2 = 2 ^ (k - 1)).
    { rewrite Hlen, Hpow, Nat.mul_comm. apply Nat.div_mul. lia. }
    destruct (split_range arr) as (e & o & E & Le & Lo & Hsplit).
    rewrite Hhalf in Le, Lo, Hsplit.
    rewrite fft_S, E, bind_Done in F by lia.
    apply bind_Done_inv in F as (a0 & F0 & F).
    apply bind_Done_inv in F as (a1 & F1 & F).
    pose proof (fft_length _ _ _ _ _ F0) as L0.
    pose proof (fft_length _ _ _ _ _ F1) as L1.
    destruct (combine_range a0 a1 arr (twiddle_base Cos Sin (length arr)) (length arr / 2))
      as (arr' & C & L & Hout); try lia.
    rewrite C, bind_Done in F. simpl in F. inversion F; subst arr'.
    rewrite Hhalf, Hlen in Hout.
    exists e, o, a0, a1. repeat match goal with |- _ /\ _ => split end; done.
Qed.

(** C2: on the unit impulse of length 4, [FFT] yields four times (0.5, 0),
    whatever finite numbers the library's cosine and sine return at -2*pi/4. *)
Theorem FFT_impulse (fuel : nat) :
  finite (Real (twiddle_base Cos Sin 4)) = true ->
  finite (Imag (twiddle_base Cos Sin 4)) = true ->
  FFT Cos Sin (S (S (S fuel))) impulse4
    = Done [mkComplex 0.5 0; mkComplex 0.5 0; mkComplex 0.5 0; mkComplex 0.5 0].
Proof.
  intros Hr Hi.
  destruct (Mul_one_finite _ Hr Hi) as [Wr Wi].
  destruct (Mul_zero_r _ Wr Wi) as [Qr Qi].
  erewrite FFT_scale.
  2:{ unfold impulse4. rewrite fft_S by (simpl; lia).
      cbn -[fft float64 Pi PrimFloat.div PrimFloat.mul].
      rewrite !fft_S by (simpl; lia). cbn -[fft float64 Pi].
      rewrite !fft_one by done. cbn -[float64 Pi Mul Add Sub twiddle_base].
      change (Sub (mkComplex 0 0) (Mul (mkComplex 1 0) (mkComplex 0 0)))
        with (mkComplex 0 0).
      reflexivity. }
  destruct (Mul (Mul (mkComplex 1 0) (twiddle_base Cos Sin 4)) (mkComplex 0 0))
    as [qr qi].
  simpl in Qr, Qi.
  destruct Qr as [-> | ->], Qi as [-> | ->]; vm_compute; reflexivity.
Qed.

(** C3: the four operations of [Complex] compute, component by component,
    the formulas of complex addition, subtraction, multiplication and
    multiplication by a real. *)
Theorem Complex_arithmetic (a b : Complex) (s : float) :
  Add a b = mkComplex (Real a + Real b)%float (Imag a + Imag b)%float
  /\ Sub a b = mkComplex (Real a - Real b)%float (Imag a - Imag b)%float
  /\ Mul a b = mkComplex (Real a * Real b - Imag a * Imag b)%float
                         (Real a * Imag b + Imag a * Real b)%float
  /\ MulScalar a s = mkComplex (Real a * s)%float (Imag a * s)%float.
Proof. repeat split. Qed.

(** C4, as amended: on every slice of length at least 1, a power of two or
    not, [FFT] returns, with as many elements as it was given; the depth of
    the recursion is logarithmic in the length. *)
Theorem FFT_returns_nonempty (fuel : nat) (arr : list Complex) :
  1 <= length arr -> length arr < 2 ^ fuel ->
  exists out, FFT Cos Sin fuel arr = Done out /\ length out = length arr.
Proof.
  intros Hlo Hhi. destruct (fft_total Cos Sin fuel arr) as (out & F); [lia|].
  rewrite (FFT_scale _ _ _ _ _ F). eexists. split; [reflexivity|].
  rewrite length_map. now apply fft_length in F.
Qed.

(** C5: [FFT] leaves a single-element slice as it is: [fft] returns at once
    and the factor 1/sqrt(1) is 1, by which every float multiplies to itself. *)
Theorem FFT_single (fuel : nat) (c : Complex) :
  FFT Cos Sin (S fuel) [c] = Done [c].
Proof.
  rewrite (FFT_scale Cos Sin (S fuel) [c] [c]) by (now apply fft_one).
  change (1 / sqrt (float64 (length [c])))%float with 1%float.
  simpl. now rewrite MulScalar_one.
Qed.

(** C6: a call of [fft] on a slice of even length n = 2h >= 2.  The first
    loop fills [even] and [odd] with the elements at positions 0, 2, 4, ... and
    1, 3, 5, ..., in order; both are transformed by [fft]; then, with wn =
    (cos(-2*pi/n), sin(-2*pi/n)), the second loop has w = wn^i after i
    iterations (w starts at (1, 0) and is multiplied by wn at the end of each
    iteration), and the iteration with index i leaves Add(a0[i], Mul(wn^i, a1[i]))
    at position i and Sub(a0[i], Mul(wn^i, a1[i])) at position i + h. *)
Theorem fft_combine (fuel h : nat) (arr : list Complex) :
  1 <= h -> length arr = 2 * h -> h < 2 ^ fuel ->
  let wn := twiddle_base Cos Sin (length arr) in
  exists even odd a0 a1 out,
    for_range h (split_step arr) ([], []) = Done (even, odd)
    /\ length even = h /\ length odd = h
    /\ (forall i, i < h ->
          even !! i = arr !! (2 * i) /\ odd !! i = arr !! (2 * i + 1))
    /\ fft Cos Sin fuel even = Done a0
    /\ fft Cos Sin fuel odd = Done a1
    /\ fft Cos Sin (S fuel) arr = Done out
    /\ length out = length arr
    /\ (forall i, i <= h -> exists arr_i,
          for_range i (combine_step a0 a1 wn h) (arr, mkComplex 1 0)
            = Done (arr_i, twiddle_power wn i))
    /\ (forall i, i < h -> exists p y,
          a0 !! i = Some p /\ a1 !! i = Some y
          /\ out !! i = Some (Add p (Mul (twiddle_power wn i) y))
          /\ out !! (i + h) = Some (Sub p (Mul (twiddle_power wn i) y))).
Proof.
  intros Hh Hlen Hfuel wn.
  assert (Hhalf : length arr / 2 = h).
  { rewrite Hlen, Nat.mul_comm. apply Nat.div_mul. lia. }
  destruct (split_range arr) as (e & o & E & Le & Lo & Hsplit).
  rewrite Hhalf in E, Le, Lo, Hsplit.
  destruct (fft_total Cos Sin fuel e) as (a0 & F0); [lia|].
  destruct (fft_total Cos Sin fuel o) as (a1 & F1); [lia|].
  pose proof (fft_length _ _ _ _ _ F0) as L0.
  pose proof (fft_length _ _ _ _ _ F1) as L1.
  destruct (combine_range a0 a1 arr wn h) as (out & C & L & Hout); try lia.
  rewrite Hhalf in C, Hout.
  exists e, o, a0, a1, out.
  repeat match goal with |- _ /\ _ => split end; try done.
  - rewrite fft_S by lia. rewrite Hhalf, E, bind_Done, F0, bind_Done, F1, bind_Done.
    fold wn. now rewrite C, bind_Done.
  - intros i Hi.
    destruct (combine_range a0 a1 arr wn i) as (arr_i & Ci & _); try lia.
    rewrite Hhalf in Ci. now exists arr_i.
Qed.

(** C7: when [FFT] returns, its slice has the length it had at the call;
    and no call stops on an index out of range: every element is read and
    written in place. *)
Theorem FFT_length (fuel : nat) (arr out : list Complex) :
  FFT Cos Sin fuel arr = Done out ->
  length out = length arr /\ forall fuel', FFT Cos Sin fuel' arr <> Panic.
Proof.
  intros H. split.
  - apply FFT_Done_inv in H as (res & F & ->).
    rewrite length_map. now apply fft_length in F.
  - intros fuel'. unfold FFT.
    destruct (fft Cos Sin fuel' arr) as [res| |] eqn:F; [|now apply fft_no_panic in F|done].
    rewrite bind_Done. unfold for_range. now rewrite (scale_loop _ res []).
Qed.

(** C8, as amended: on a slice of n >= 1 elements whose components are all
    finite and below 2^B in magnitude, where B plus six bits for each of the
    floor(log2 n) + 1 levels of the recursion and three for the scaling stays
    within the 1024 of binary64, [FFT] returns a slice whose components are
    all finite, provided the running powers w of the combine loops are below
    2 in magnitude in both components (the cosine and the sine are library
    functions; with accurate ones the modulus of w stays close to 1).  Without
    a bound on the magnitudes a sum can exceed the largest finite number, as
    for two copies of it. *)
Theorem FFT_finite_bounded (fuel : nat) (arr : list Complex) (B : Z) :
  1 <= length arr < 2 ^ fuel ->
  all_below B arr = true ->
  (-1073 <= B)%Z -> (B + 6 * Z.of_nat fuel + 3 <= 1024)%Z ->
  twiddles_below Cos Sin (length arr) ->
  exists out, FFT Cos Sin fuel arr = Done out /\ all_finite out = true.
Proof.
  intros Hlen HB Hlo Hhi Htw.
  destruct (fft_total Cos Sin fuel arr Hlen) as (res & F).
  pose proof (fft_below Cos Sin fuel arr res B F HB Hlo ltac:(lia) Htw) as Hres.
  eexists. split; [apply (FFT_scale Cos Sin fuel arr res F)|].
  apply (all_below_finite (B + 6 * Z.of_nat fuel + 2 + 1)).
  apply all_below_lookup. intros i c Hi.
  change (map ?f ?l) with (f <$> l) in Hi.
  rewrite list_lookup_fmap in Hi.
  destruct (res !! i) as [x|] eqn:Ex; [|discriminate].
  cbn in Hi. inversion Hi; subst c.
  apply MulScalar_below; try lia.
  - now apply (proj1 (all_below_lookup _ res) Hres i).
  - apply factor_below. lia.
Qed.

End GoClaims.

(** C1 at the unit impulse of length 4 (k = 2). *)
Lemma FFT_normalizes_once_impulse :
  length impulse4 = 2 ^ 2 /\ 2 < 3
  /\ exists out a0 a1 : list Go.Complex,
       Go.fft poly_cos poly_sin 3 impulse4 = Done out
       /\ Go.FFT poly_cos poly_sin 3 impulse4
            = Done (map (fun c => Go.MulScalar c (1 / sqrt (float64 (2 ^ 2)))%float) out)
       /\ (forall i, i < 2 ^ (2 - 1) -> exists p y,
             a0 !! i = Some p /\ a1 !! i = Some y
             /\ out !! i
                  = Some (Go.Add p (Go.Mul
                       (Go.twiddle_power (Go.twiddle_base poly_cos poly_sin (2 ^ 2)) i) y))
             /\ out !! (i + 2 ^ (2 - 1))
                  = Some (Go.Sub p (Go.Mul
                       (Go.twiddle_power (Go.twiddle_base poly_cos poly_sin (2 ^ 2)) i) y))).
Proof.
  split; [reflexivity|]. split; [lia|].
  destruct (FFT_normalizes_once poly_cos poly_sin 2 3 impulse4)
    as (out & F & _ & S & _ & Hrec); [reflexivity | lia |].
  destruct Hrec as (even & odd & a0 & a1 & _ & _ & _ & _ & _ & Hout); [lia|].
  exists out, a0, a1. auto.
Defined.

(** C2 with the Taylor cosine and sine. *)
Lemma FFT_impulse_poly :
  finite (Go.Real (Go.twiddle_base poly_cos poly_sin 4)) = true
  /\ finite (Go.Imag (Go.twiddle_base poly_cos poly_sin 4)) = true
  /\ Go.FFT poly_cos poly_sin 3 impulse4
       = Done [Go.mkComplex 0.5 0; Go.mkComplex 0.5 0; Go.mkComplex 0.5 0;
               Go.mkComplex 0.5 0].
Proof.
  split; [reflexivity|]. split; [reflexivity|].
  apply (FFT_impulse poly_cos poly_sin 0); reflexivity.
Defined.

(** C4: the empty slice.  [fft] compares the length with 1 only, so on
    length 0 it calls itself on an empty slice again, at every depth. *)
Lemma FFT_empty_diverges :
  ~ (exists (Cos Sin : float -> float) (fuel : nat) (out : list Go.Complex),
       Go.FFT Cos Sin fuel [] = Done out).
Proof.
  intros (Cos & Sin & fuel & out & H).
  unfold Go.FFT in H. rewrite fft_nil in H. discriminate.
Qed.

(** C4 as amended, at a slice of three elements. *)
Lemma FFT_returns_three :
  1 <= length three_samples /\ length three_samples < 2 ^ 2
  /\ exists out,
       Go.FFT poly_cos poly_sin 2 three_samples = Done out
       /\ length out = length three_samples.
Proof.
  split; [simpl; lia|]. split; [simpl; lia|].
  apply (FFT_returns_nonempty poly_cos poly_sin 2 three_samples); simpl; lia.
Defined.

(** C6 at the unit impulse of length 4 (h = 2). *)
Lemma fft_combine_impulse :
  1 <= 2 /\ length impulse4 = 2 * 2 /\ 2 < 2 ^ 2
  /\ exists even odd a0 a1 out,
       for_range 2 (Go.split_step impulse4) ([], []) = Done (even, odd)
       /\ Go.fft poly_cos poly_sin 2 even = Done a0
       /\ Go.fft poly_cos poly_sin 2 odd = Done a1
       /\ Go.fft poly_cos poly_sin 3 impulse4 = Done out.
Proof.
  split; [lia|]. split; [reflexivity|]. split; [simpl; lia|].
  destruct (fft_combine poly_cos poly_sin 2 2 impulse4)
    as (even & odd & a0 & a1 & out & E & _ & _ & _ & F0 & F1 & F & _);
    [lia | reflexivity | simpl; lia |].
  exists even, odd, a0, a1, out. auto.
Defined.

(** C7 at the unit impulse of length 4. *)
Lemma FFT_length_impulse :
  Go.FFT poly_cos poly_sin 3 impulse4 = Done halves4
  /\ length halves4 = length impulse4
  /\ forall fuel', Go.FFT poly_cos poly_sin fuel' impulse4 <> Panic.
Proof.
  split; [reflexivity|].
  apply (FFT_length poly_cos poly_sin 3 impulse4 halves4). reflexivity.
Defined.

(** C8: two copies of the largest finite float.  Whatever the cosine and the
    sine, the first output is their sum, which is infinite. *)
Lemma FFT_overflow :
  all_finite [Go.mkComplex MaxFloat64 0; Go.mkComplex MaxFloat64 0] = true
  /\ Go.FFT poly_cos poly_sin 2 [Go.mkComplex MaxFloat64 0; Go.mkComplex MaxFloat64 0]
       = Done [Go.mkComplex infinity 0; Go.mkComplex 0 0]
  /\ ~ (exists (Cos Sin : float -> float) (fuel : nat) (out : list Go.Complex),
          Go.FFT Cos Sin fuel [Go.mkComplex MaxFloat64 0; Go.mkComplex MaxFloat64 0]
            = Done out
          /\ all_finite out = true).
Proof.
  split; [reflexivity|]. split; [apply FFT_max_pair|].
  intros (Cos & Sin & fuel & out & H & Hfin).
  destruct fuel as [|[|fuel]]; try discriminate.
  rewrite FFT_max_pair in H. inversion H; subst. discriminate.
Qed.

(** C8 as amended, at four samples near 2^1000 in magnitude (B = 1001, three
    levels). *)
Lemma FFT_finite_bounded_large :
  1 <= length large4 < 2 ^ 3
  /\ all_below 1001 large4 = true
  /\ twiddles_below poly_cos poly_sin (length large4)
  /\ exists out,
       Go.FFT poly_cos poly_sin 3 large4 = Done out /\ all_finite out = true.
Proof.
  assert (Htw : twiddles_below poly_cos poly_sin (length large4)).
  { intros m i Hm Hi. cbn [length large4] in Hm.
    destruct m as [|[|[|[|[|m]]]]]; try lia;
      (destruct i as [|[|i]]; [vm_compute; reflexivity | ..]);
      try (vm_compute; reflexivity); cbn in Hi; lia. }
  split; [cbn; lia|]. split; [reflexivity|]. split; [exact Htw|].
  apply (FFT_finite_bounded poly_cos poly_sin 3 large4 1001);
    [cbn; lia | reflexivity | lia | lia | exact Htw].
Defined.

(** ** The command-line harness *)

Section HarnessClaims.

Import Harness.

Variable maxAlloc : N.
Variables Cos Sin Round : float -> float.
Variable Atoi : string -> option Z.

Lemma wrap_int_small (z : Z) : (- 2 ^ 63 <= z < 2 ^ 63)%Z -> wrap_int z = z.
Proof.
  intros H. unfold wrap_int. rewrite Z.mod_small by lia. lia.
Qed.

Lemma pow2_small (size : Z) : (0 <= size <= 62)%Z -> (1 <= 2 ^ size < 2 ^ 63)%Z.
Proof.
  intros H. split.
  - pose proof (Z.pow_pos_nonneg 2 size). lia.
  - apply Z.pow_lt_mono_r; lia.
Qed.

Lemma wrap_int_pow2_big (size : Z) : (64 <= size)%Z -> wrap_int (2 ^ size) = 0%Z.
Proof.
  intros H. unfold wrap_int.
  replace (2 ^ size)%Z with (2 ^ (size - 64) * 2 ^ 64)%Z
    by (rewrite <- Z.pow_add_r by lia; f_equal; lia).
  rewrite Z.add_comm, Z.mod_add by lia. reflexivity.
Qed.

Lemma make_ok_true (cap : Z) :
  make_ok maxAlloc cap = true
  <-> (0 <= cap /\ 16 * cap < 2 ^ 64 /\ 16 * cap <= Z.of_N maxAlloc)%Z.
Proof.
  unfold make_ok. rewrite !andb_true_iff, Z.leb_le, Z.ltb_lt, Z.leb_le. tauto.
Qed.

Lemma make_ok_false (cap : Z) :
  (cap < 0 \/ 2 ^ 64 <= 16 * cap \/ Z.of_N maxAlloc < 16 * cap)%Z ->
  make_ok maxAlloc cap = false.
Proof.
  intros H. destruct (make_ok maxAlloc cap) eqn:E; [|reflexivity].
  apply make_ok_true in E. lia.
Qed.

Lemma generate_loop (len c : nat) : forall i (inputs : list Go.Complex),
  for_from i c (generate_step Cos Sin Round len) inputs
    = Done (inputs ++ map (go_sample Cos Sin Round len) (seq i c)).
Proof.
  induction c as [|c IH]; intros i inputs; cbn [for_from seq map].
  - now rewrite app_nil_r.
  - change (generate_step Cos Sin Round len i inputs)
      with (Done (inputs ++ [go_sample Cos Sin Round len i])).
    rewrite bind_Done, IH, <- app_assoc. reflexivity.
Qed.

Lemma generate_range (len : Z) :
  make_ok maxAlloc len = true ->
  generateInputs maxAlloc Cos Sin Round len
    = Done (map (go_sample Cos Sin Round (Z.to_nat len)) (seq 0 (Z.to_nat len))).
Proof.
  intros H. unfold generateInputs. rewrite H. unfold for_range.
  now rewrite generate_loop.
Qed.

Lemma generate_zero : generateInputs maxAlloc Cos Sin Round 0 = Done [].
Proof.
  rewrite generate_range; [reflexivity|].
  apply make_ok_true. pose proof (N2Z.is_nonneg maxAlloc). lia.
Qed.

Lemma generate_refused (len : Z) :
  make_ok maxAlloc len = false -> generateInputs maxAlloc Cos Sin Round len = Panic.
Proof. intros H. unfold generateInputs. now rewrite H. Qed.

(** C9, as amended: without a size argument [main] writes the usage line to
    the error stream and exits with status 1; with one that [strconv.Atoi]
    rejects, or that is negative, it writes the invalid-size line and exits
    with status 1.  Otherwise it shifts 1 left by [size] in a 64-bit int.
    When the 16 * 2^size bytes of that many samples are within the limit of
    [make] (size at most 59 and no more than [maxAlloc] bytes) the shift is
    2^size, [generateInputs] returns 2^size samples and [FFT] is called on
    them.  For the other sizes up to 63 [make] panics in [generateInputs] and
    [FFT] is not called; from 64 on the shift is 0 and [FFT] is called on the
    empty slice, from which it does not return. *)
Theorem main_behaviour (fuel : nat) (arg0 : string) :
  main maxAlloc Cos Sin Round Atoi fuel arg0 []
    = Exited 1 ("usage: " ++ arg0 ++ " <size>" ++ newline)
  /\ (forall a rest,
        (Atoi a = None \/ exists size, Atoi a = Some size /\ (size < 0)%Z) ->
        main maxAlloc Cos Sin Round Atoi fuel arg0 (a :: rest)
          = Exited 1 ("invalid <size>; must be a non-negative integer" ++ newline))
  /\ (forall a rest size,
        Atoi a = Some size -> (0 <= size)%Z ->
        ((size <= 59)%Z -> (16 * 2 ^ size <= Z.of_N maxAlloc)%Z ->
         exists signals,
           generateInputs maxAlloc Cos Sin Round (2 ^ size) = Done signals
           /\ Z.of_nat (length signals) = (2 ^ size)%Z
           /\ main maxAlloc Cos Sin Round Atoi fuel arg0 (a :: rest)
                = Ran (2 ^ size) (Go.FFT Cos Sin fuel signals))
        /\ ((size <= 63)%Z ->
            (59 < size \/ Z.of_N maxAlloc < 16 * 2 ^ size)%Z ->
            main maxAlloc Cos Sin Round Atoi fuel arg0 (a :: rest)
              = Ran (wrap_int (2 ^ size)) Panic)
        /\ ((64 <= size)%Z ->
            main maxAlloc Cos Sin Round Atoi fuel arg0 (a :: rest)
              = Ran 0 (Go.FFT Cos Sin fuel [])
            /\ Go.FFT Cos Sin fuel [] = OutOfFuel)).
Proof.
  split; [reflexivity|]. split.
  - intros a rest [E | (size & E & Hneg)]; unfold main; rewrite E; [reflexivity|].
    apply Z.ltb_lt in Hneg. now rewrite Hneg.
  - intros a rest size E Hpos. unfold main. rewrite E.
    assert (Hge : (size <? 0)%Z = false) by (apply Z.ltb_ge; lia).
    rewrite Hge, Z.shiftl_1_l. cbv zeta.
    split; [|split].
    + intros H59 Hmax.
      assert (H60 : (2 ^ size <= 2 ^ 59)%Z) by (apply Z.pow_le_mono_r; lia).
      pose proof (pow2_small size) as Hp.
      rewrite wrap_int_small by lia.
      assert (Hok : make_ok maxAlloc (2 ^ size) = true) by (apply make_ok_true; lia).
      rewrite (generate_range _ Hok), bind_Done.
      eexists. split; [reflexivity|]. split; [|reflexivity].
      rewrite length_map, length_seq. lia.
    + intros H63 Hbad.
      rewrite generate_refused; [reflexivity|].
      destruct (decide (size = 63%Z)) as [->|Hne]; [reflexivity|].
      pose proof (pow2_small size) as Hp.
      rewrite wrap_int_small by lia.
      apply make_ok_false. destruct Hbad as [Hbig|Hbig]; [|lia].
      assert (H60 : (2 ^ 60 <= 2 ^ size)%Z) by (apply Z.pow_le_mono_r; lia).
      lia.
    + intros H64. rewrite wrap_int_pow2_big, generate_zero, bind_Done by lia.
      split; [reflexivity|]. unfold Go.FFT. now rewrite fft_nil.
Qed.

End HarnessClaims.

(** C9 on five command lines, read with the decimal reader. *)
Lemma main_behaviour_examples :
  Harness.main maxAlloc_linux poly_cos poly_sin nearest_int decimal 3 "fft" []
    = Harness.Exited 1 ("usage: fft <size>" ++ Harness.newline)
  /\ Harness.main maxAlloc_linux poly_cos poly_sin nearest_int decimal 3 "fft"
       ["four"%string]
       = Harness.Exited 1
           ("invalid <size>; must be a non-negative integer" ++ Harness.newline)
  /\ Harness.main maxAlloc_linux poly_cos poly_sin nearest_int decimal 3 "fft"
       ["-1"%string]
       = Harness.Exited 1
           ("invalid <size>; must be a non-negative integer" ++ Harness.newline)
  /\ (exists signals,
        Harness.generateInputs maxAlloc_linux poly_cos poly_sin nearest_int (2 ^ 2)
          = Done signals
        /\ Z.of_nat (length signals) = (2 ^ 2)%Z
        /\ Harness.main maxAlloc_linux poly_cos poly_sin nearest_int decimal 3 "fft"
             ["2"%string]
             = Harness.Ran (2 ^ 2) (Go.FFT poly_cos poly_sin 3 signals))
  /\ Harness.main maxAlloc_linux poly_cos poly_sin nearest_int decimal 3 "fft"
       ["45"%string]
       = Harness.Ran (Harness.wrap_int (2 ^ 45)) Panic.
Proof.
  destruct (main_behaviour maxAlloc_linux poly_cos poly_sin nearest_int decimal 3 "fft")
    as (Husage & Hinvalid & Hrun).
  split; [exact Husage|].
  split; [apply Hinvalid; left; reflexivity|].
  split; [apply Hinvalid; right; exists (-1)%Z; split; [reflexivity | lia]|].
  split.
  - destruct (Hrun "2"%string [] 2%Z) as (Hgo & _); [reflexivity | lia |].
    apply Hgo; [lia | vm_compute; discriminate].
  - destruct (Hrun "45"%string [] 45%Z) as (_ & Hpanic & _); [reflexivity | lia |].
    apply Hpanic; [lia | right; reflexivity].
Defined.

(** C9: the size 64.  The shift leaves 0 in the 64-bit int, not 2^64, and the
    transform is called on the empty slice. *)
Lemma main_shift_wraps :
  decimal "64" = Some 64%Z
  /\ Harness.main maxAlloc_linux poly_cos poly_sin nearest_int decimal 1 "fft"
       ["64"%string]
       = Harness.Ran 0 OutOfFuel
  /\ ~ (forall (maxAlloc : N) (Cos Sin Round : float -> float)
            (Atoi : string -> option Z)
            (fuel : nat) (arg0 a : string) (rest : list string) (size : Z),
       Atoi a = Some size -> (0 <= size)%Z ->
       exists transform,
         Harness.main maxAlloc Cos Sin Round Atoi fuel arg0 (a :: rest)
           = Harness.Ran (2 ^ size) transform).
Proof.
  split; [reflexivity|]. split; [reflexivity|].
  intros H.
  destruct (H maxAlloc_linux poly_cos poly_sin nearest_int decimal 1
              "fft"%string "64"%string [] 64%Z)
    as (transform & E); [reflexivity | lia |].
  vm_compute in E. discriminate.
Qed.

(** ** The two ports *)

Ltac port_step :=
  cbn [mbind outcome_bind outcome_map fst snd pair_go state_go]; try done.

Section Ports.

Variables Cos Sin cos sin : float -> float.

Hypothesis Cos_cos : forall x, Cos x = cos x.
Hypothesis Sin_sin : forall x, Sin x = sin x.

Lemma split_step_sim arr j st :
  Go.split_step (map as_go arr) j (pair_go st)
    = outcome_map pair_go (Swift.split_step arr j st).
Proof.
  destruct st as [a0 a1]. unfold Go.split_step, Swift.split_step, pair_go.
  cbn [fst snd]. rewrite !index_map.
  destruct (index arr (2 * j)) as [x| |]; port_step.
  destruct (index arr (2 * j + 1)) as [y| |]; port_step.
  now rewrite !map_app.
Qed.

Lemma combine_step_sim a0 a1 wn h j st :
  Go.combine_step (map as_go a0) (map as_go a1) (as_go wn) h j (state_go st)
    = outcome_map state_go (Swift.combine_step a0 a1 wn h j st).
Proof.
  destruct st as [arr w]. unfold Go.combine_step, Swift.combine_step, state_go.
  cbn [fst snd]. rewrite !index_map.
  destruct (index a0 j) as [p| |]; port_step.
  destruct (index a1 j) as [y| |]; port_step.
  change (Go.Add (as_go p) (Go.Mul (as_go w) (as_go y)))
    with (as_go (Swift.op_add p (Swift.op_mul w y))).
  rewrite assign_map.
  destruct (assign arr j _) as [arr1| |]; port_step.
  change (Go.Sub (as_go p) (Go.Mul (as_go w) (as_go y)))
    with (as_go (Swift.op_sub p (Swift.op_mul w y))).
  rewrite assign_map.
  destruct (assign arr1 (j + h) _) as [arr2| |]; port_step.
Qed.

Lemma scale_step_sim factor j arr :
  Go.scale_step factor j (map as_go arr)
    = outcome_map (map as_go) (Swift.scale_step factor j arr).
Proof.
  unfold Go.scale_step, Swift.scale_step. rewrite index_map.
  destruct (index arr j) as [x| |]; port_step.
  change (Go.MulScalar (as_go x) factor) with (as_go (Swift.op_mul_scalar x factor)).
  apply assign_map.
Qed.

Lemma fft_sim fuel : forall arr,
  Go.fft Cos Sin fuel (map as_go arr)
    = outcome_map (map as_go) (Swift._fft cos sin fuel arr).
Proof using Cos_cos Sin_sin.
  induction fuel as [|fuel IH]; intros arr; [done|].
  cbn [Go.fft Swift._fft]. rewrite length_map.
  destruct (length arr =? 1); [done|].
  unfold for_range.
  change ([], []) with (pair_go ([], [])) at 1.
  rewrite (for_from_sim pair_go (Swift.split_step arr)) by apply split_step_sim.
  destruct (for_from 0 _ (Swift.split_step arr) _) as [[e o]| |]; port_step.
  rewrite !IH.
  destruct (Swift._fft cos sin fuel e) as [a0| |]; port_step.
  destruct (Swift._fft cos sin fuel o) as [a1| |]; port_step.
  rewrite Cos_cos, Sin_sin.
  set (wn := Swift.mkComplex _ _).
  change (Go.mkComplex (cos _) (sin _)) with (as_go wn).
  change (map as_go arr, Go.mkComplex 1 0) with (state_go (arr, Swift.mkComplex 1 0)).
  rewrite (for_from_sim state_go (Swift.combine_step a0 a1 wn (length arr / 2)))
    by apply combine_step_sim.
  destruct (for_from 0 _ (Swift.combine_step _ _ _ _) _) as [[arr' w']| |]; port_step.
Qed.

(** C10: given a cosine and a sine that return the same floats on both
    platforms, the Go [FFT] and the Swift [fft] on the same samples end alike,
    and when they return their slices hold the same samples. *)
Theorem ports_agree (fuel : nat) (arr : list Swift.Complex) :
  Go.FFT Cos Sin fuel (map as_go arr)
    = outcome_map (map as_go) (Swift.fft cos sin fuel arr).
Proof using Cos_cos Sin_sin.
  unfold Go.FFT, Swift.fft. rewrite fft_sim.
  destruct (Swift._fft cos sin fuel arr) as [out| |]; port_step.
  rewrite length_map. unfold for_range.
  apply for_from_sim. intros j t. apply scale_step_sim.
Qed.

End Ports.

(** C10 as amended, with two cosines that are written differently and
    return the same floats. *)
Lemma ports_agree_poly :
  (forall x, poly_cos x = poly_cos_times_one x) /\ (forall x, poly_sin x = poly_sin x)
  /\ Go.FFT poly_cos poly_sin 3 (map as_go swift_delayed4)
       = outcome_map (map as_go) (Swift.fft poly_cos_times_one poly_sin 3 swift_delayed4).
Proof.
  assert (Hcos : forall x, poly_cos x = poly_cos_times_one x).
  { intros x. unfold poly_cos_times_one. now rewrite mul_one_r. }
  split; [exact Hcos|]. split; [reflexivity|].
  apply (ports_agree poly_cos poly_sin poly_cos_times_one poly_sin); [exact Hcos|reflexivity].
Defined.

(** C10: the unit impulse delayed by one sample, with cosines that differ at
    -pi/2 as the two platforms' do.  The second output is half the twiddle
    base, so its real part differs between the ports. *)
Lemma ports_differ :
  second_real (Go.FFT cos_go_like poly_sin 3 (map as_go swift_delayed4))
    = S754_finite false 4967757600021504 (-107)
  /\ second_real (outcome_map (map as_go)
                    (Swift.fft cos_libm_like poly_sin 3 swift_delayed4))
       = S754_finite false 4967757600021511 (-107)
  /\ ~ (forall (Cos Sin cos sin : float -> float) (fuel : nat)
               (arr : list Swift.Complex),
          Go.FFT Cos Sin fuel (map as_go arr)
            = outcome_map (map as_go) (Swift.fft cos sin fuel arr)).
Proof.
  split; [reflexivity|]. split; [reflexivity|].
  intros H.
  specialize (H cos_go_like poly_sin cos_libm_like poly_sin 3 swift_delayed4).
  apply (f_equal second_real) in H. vm_compute in H. discriminate.
Qed.

(** * Further properties of the code *)

(** ** Complex arithmetic (fft/complex.go) *)

Lemma SF64add_comm (x y : spec_float) : SF64add x y = SF64add y x.
Proof.
  unfold SF64add, SFadd.
  destruct x as [sx|sx| |sx mx ex], y as [sy|sy| |sy my ey]; try reflexivity;
    try (now destruct sx, sy).
  now rewrite Z.min_comm, Z.add_comm.
Qed.

Lemma add_comm (x y : float) : (x + y)%float = (y + x)%float.
Proof. apply Prim2SF_inj. rewrite !add_spec. apply SF64add_comm. Qed.

Lemma SFeqb_refl_finite (x : spec_float) :
  match x with S754_zero _ | S754_finite _ _ _ => True | _ => False end ->
  SFeqb x x = true.
Proof.
  destruct x as [s|s| |s m e]; try done; intros _; unfold SFeqb, SFcompare.
  rewrite Z.compare_refl, Pos.compare_cont_refl. now destruct s.
Qed.

Lemma sub_zero_eqb (x z : float) :
  finite x = true -> signed_zero z -> (x - z =? x)%float = true.
Proof.
  intros H Hz. rewrite FloatAxioms.eqb_spec, sub_spec.
  destruct (finite_cases x H) as [[s E]|(s & m & e & E)]; rewrite E;
    destruct Hz as [-> | ->].
  1-2: now destruct s.
  all: apply (SFeqb_refl_finite (S754_finite s m e)); exact I.
Qed.

Lemma add_zero_eqb (x z : float) :
  finite x = true -> signed_zero z -> (x + z =? x)%float = true.
Proof.
  intros H Hz. rewrite FloatAxioms.eqb_spec, add_spec.
  destruct (finite_cases x H) as [[s E]|(s & m & e & E)]; rewrite E;
    destruct Hz as [-> | ->].
  1-2: now destruct s.
  all: apply (SFeqb_refl_finite (S754_finite s m e)); exact I.
Qed.

(** X1: [Add] and [Mul] are commutative as operations on float64 values
    (NaNs are not told apart): binary64 addition and multiplication are, and
    [Mul] combines its four products symmetrically. *)
Theorem Complex_commutative (a b : Go.Complex) :
  Go.Add a b = Go.Add b a /\ Go.Mul a b = Go.Mul b a.
Proof.
  split.
  - unfold Go.Add. now rewrite (add_comm (Go.Real a)), (add_comm (Go.Imag a)).
  - unfold Go.Mul.
    rewrite (mul_comm (Go.Real a) (Go.Real b)), (mul_comm (Go.Imag a) (Go.Imag b)).
    rewrite (add_comm (Go.Real a * Go.Imag b)).
    now rewrite (mul_comm (Go.Imag a) (Go.Real b)), (mul_comm (Go.Real a) (Go.Imag b)).
Qed.

(** X2: multiplying by [Complex{1, 0}], the value of [w] in the first
    iteration of the combine loop, leaves an operand with finite components
    numerically as it is (a zero component may change sign). *)
Theorem Mul_one_l_numeric (y : Go.Complex) :
  finite (Go.Real y) = true -> finite (Go.Imag y) = true ->
  (Go.Real (Go.Mul (Go.mkComplex 1 0) y) =? Go.Real y)%float = true
  /\ (Go.Imag (Go.Mul (Go.mkComplex 1 0) y) =? Go.Imag y)%float = true.
Proof.
  intros Hr Hi. destruct y as [c s]. simpl in *. rewrite !mul_one_l. split.
  - apply sub_zero_eqb; [done|]. now apply mul_zero_l.
  - apply add_zero_eqb; [done|]. now apply mul_zero_l.
Qed.

(** X2 at the sample (3, -4). *)
Lemma Mul_one_l_numeric_sample :
  finite 3 = true /\ finite (-4) = true
  /\ (Go.Real (Go.Mul (Go.mkComplex 1 0) (Go.mkComplex 3 (-4))) =? 3)%float = true
  /\ (Go.Imag (Go.Mul (Go.mkComplex 1 0) (Go.mkComplex 3 (-4))) =? -4)%float = true.
Proof.
  split; [reflexivity|]. split; [reflexivity|].
  apply (Mul_one_l_numeric (Go.mkComplex 3 (-4))); reflexivity.
Defined.

(** ** The Go transform (fft/cooley_tukey.go) *)

Section GoMore.

Import Go.

Variables Cos Sin : float -> float.

(** A returning call was given at least one element and fewer than
    [2 ^ fuel]. *)
Lemma fft_Done_bounds fuel : forall (arr out : list Complex),
  fft Cos Sin fuel arr = Done out -> 1 <= length arr < 2 ^ fuel.
Proof.
  induction fuel as [|fuel IH]; intros arr out H; [discriminate|].
  rewrite Nat.pow_succ_r'.
  destruct (decide (length arr = 1)) as [E1|N1].
  - rewrite E1. pose proof (Nat.pow_nonzero 2 fuel). lia.
  - rewrite fft_S in H by done.
    destruct (split_range arr) as (e & o & E & Le & Lo & _).
    rewrite E, bind_Done in H.
    apply bind_Done_inv in H as (a0 & F0 & H).
    apply IH in F0. rewrite Le in F0.
    pose proof (Nat.div_mod_eq (length arr) 2).
    pose proof (Nat.mod_upper_bound (length arr) 2). lia.
Qed.

(** X3: [FFT] returns within a call depth [d] exactly on the slices of at
    least one and fewer than 2^d elements: the recursion is one call deeper
    than the binary logarithm of the length, and on the empty slice no depth
    suffices. *)
Theorem FFT_returns_iff (fuel : nat) (arr : list Complex) :
  (exists out, FFT Cos Sin fuel arr = Done out) <-> 1 <= length arr < 2 ^ fuel.
Proof.
  split.
  - intros (out & H). apply FFT_Done_inv in H as (res & F & _).
    now apply fft_Done_bounds in F.
  - intros H. destruct (fft_total Cos Sin fuel arr H) as (out & F).
    rewrite (FFT_scale _ _ _ _ _ F). eauto.
Qed.

(** X4: on two elements [a, b] the result is (a + 1*b, a - 1*b) scaled by
    1/sqrt(2), whatever the cosine and the sine: the twiddle base is only
    multiplied into [w] after the single iteration that uses [w]. *)
Theorem FFT_pair (fuel : nat) (a b : Complex) :
  FFT Cos Sin (S (S fuel)) [a; b]
    = Done [MulScalar (Add a (Mul (mkComplex 1 0) b)) (1 / sqrt (float64 2))%float;
            MulScalar (Sub a (Mul (mkComplex 1 0) b)) (1 / sqrt (float64 2))%float].
Proof.
  erewrite FFT_scale.
  2:{ rewrite fft_S by (simpl; lia). cbn -[fft Add Sub Mul twiddle_base].
      rewrite !fft_one by done. cbn -[Add Sub Mul twiddle_base]. reflexivity. }
  reflexivity.
Qed.

(** X5: on an odd length 2h+1 >= 3 the loops of [fft] never reach the last
    element: [FFT] returns it multiplied by the factor and nothing else. *)
Theorem FFT_odd_last (fuel h : nat) (arr : list Complex) :
  1 <= h -> length arr = 2 * h + 1 -> h < 2 ^ fuel ->
  exists out x,
    FFT Cos Sin (S fuel) arr = Done out
    /\ arr !! (2 * h) = Some x
    /\ out !! (2 * h)
         = Some (MulScalar x (1 / sqrt (float64 (length arr)))%float).
Proof.
  intros Hh Hlen Hfuel.
  assert (Hhalf : length arr / 2 = h).
  { rewrite Hlen. symmetry. apply (Nat.div_unique _ 2 h 1); lia. }
  destruct (split_range arr) as (e & o & E & Le & Lo & _).
  destruct (fft_total Cos Sin fuel e) as (a0 & F0); [lia|].
  destruct (fft_total Cos Sin fuel o) as (a1 & F1); [lia|].
  pose proof (fft_length _ _ _ _ _ F0) as L0.
  pose proof (fft_length _ _ _ _ _ F1) as L1.
  destruct (combine_loop a0 a1 (twiddle_base Cos Sin (length arr)) (length arr / 2)
              (length arr / 2) 0 arr (mkComplex 1 0))
    as (arr' & C & L & _ & Hframe); try lia.
  assert (F : fft Cos Sin (S fuel) arr = Done arr').
  { rewrite fft_S by lia. rewrite E, bind_Done, F0, bind_Done, F1, bind_Done.
    unfold for_range. now rewrite C, bind_Done. }
  destruct (lookup_lt_is_Some_2 arr (2 * h)) as [x Hx]; [lia|].
  exists (map (fun c => MulScalar c (1 / sqrt (float64 (length arr)))%float) arr'), x.
  split; [now apply FFT_scale|]. split; [exact Hx|].
  change (map ?f arr') with (f <$> arr'). rewrite list_lookup_fmap.
  rewrite Hframe by lia. now rewrite Hx.
Qed.

End GoMore.

(** X5 at three samples (h = 1). *)
Lemma FFT_odd_last_three :
  1 <= 1 /\ length three_samples = 2 * 1 + 1 /\ 1 < 2 ^ 1
  /\ exists out x,
       Go.FFT poly_cos poly_sin 2 three_samples = Done out
       /\ three_samples !! 2 = Some x
       /\ out !! 2 = Some (Go.MulScalar x (1 / sqrt (float64 3))%float).
Proof.
  split; [lia|]. split; [reflexivity|]. split; [simpl; lia|].
  apply (FFT_odd_last poly_cos poly_sin 1 1 three_samples); [lia | reflexivity | simpl; lia].
Defined.

(** ** The Go harness (package main) *)

Section HarnessMore.

Import Harness.

Variable maxAlloc : N.
Variables Cos Sin Round : float -> float.
Variable Atoi : string -> option Z.

(** X6: for a length [len >= 0] whose 16 * len bytes are within the limit of
    [make], [generateInputs] returns exactly [len] samples, the one at index
    i being the rounded pair computed from theta = (i / len) * pi; for a
    negative length, and for one above that limit, [make] panics. *)
Theorem generateInputs_samples (len : Z) :
  ((0 <= len)%Z -> (16 * len < 2 ^ 64)%Z -> (16 * len <= Z.of_N maxAlloc)%Z ->
   exists inputs,
     generateInputs maxAlloc Cos Sin Round len = Done inputs
     /\ Z.of_nat (length inputs) = len
     /\ forall i, i < Z.to_nat len ->
          inputs !! i = Some (go_sample Cos Sin Round (Z.to_nat len) i))
  /\ ((len < 0 \/ 2 ^ 64 <= 16 * len \/ Z.of_N maxAlloc < 16 * len)%Z ->
      generateInputs maxAlloc Cos Sin Round len = Panic).
Proof.
  split.
  - intros H0 H1 H2. eexists. split.
    + apply generate_range. apply make_ok_true. lia.
    + split.
      * rewrite length_map, length_seq. lia.
      * intros i Hi. change (map ?f ?l) with (f <$> l).
        rewrite list_lookup_fmap, lookup_seq_lt by done. reflexivity.
  - intros H. apply generate_refused. now apply make_ok_false.
Qed.

(** X7: given a size from 0 to 59 whose 16 * 2^size bytes [make] grants,
    [main] generates 2^size samples and the transform returns that many (at
    call depth size + 1), so the run reaches the point where the time is
    printed. *)
Theorem main_runs (fuel : nat) (arg0 a : string) (rest : list string) (size : Z) :
  Atoi a = Some size -> (0 <= size <= 59)%Z ->
  (16 * 2 ^ size <= Z.of_N maxAlloc)%Z -> Z.to_nat size < fuel ->
  exists out,
    main maxAlloc Cos Sin Round Atoi fuel arg0 (a :: rest) = Ran (2 ^ size) (Done out)
    /\ Z.of_nat (length out) = (2 ^ size)%Z.
Proof.
  intros E Hsize Hmax Hfuel. unfold main. rewrite E.
  assert (Hge : (size <? 0)%Z = false) by (apply Z.ltb_ge; lia).
  rewrite Hge, Z.shiftl_1_l.
  assert (H59 : (2 ^ size <= 2 ^ 59)%Z) by (apply Z.pow_le_mono_r; lia).
  pose proof (pow2_small size) as Hp.
  rewrite (wrap_int_small (2 ^ size)) by lia.
  rewrite generate_range by (apply make_ok_true; lia).
  rewrite bind_Done.
  set (signals := map _ _).
  assert (Hlen : length signals = 2 ^ Z.to_nat size).
  { unfold signals. rewrite length_map, length_seq.
    rewrite <- (Z2Nat.id size) at 1 by lia.
    change 2%Z with (Z.of_nat 2). rewrite <- Nat2Z.inj_pow. apply Nat2Z.id. }
  destruct (fft_total Cos Sin fuel signals) as (res & F).
  { rewrite Hlen. split.
    - pose proof (Nat.pow_nonzero 2 (Z.to_nat size)). lia.
    - apply Nat.pow_lt_mono_r; lia. }
  rewrite (FFT_scale _ _ _ _ _ F). eexists. split; [reflexivity|].
  rewrite length_map, (fft_length _ _ _ _ _ F), Hlen.
  rewrite Nat2Z.inj_pow. simpl Z.of_nat. f_equal. lia.
Qed.

(** X8: a size of 63 or more is accepted but the run never completes: for
    63 the shift gives -2^63 and [make] panics in [generateInputs]; from 64
    on it gives 0 and the transform recurses on the empty slice without
    end. *)
Theorem main_size_too_big (fuel : nat) (arg0 a : string) (rest : list string) (size : Z) :
  Atoi a = Some size -> (63 <= size)%Z ->
  (size = 63%Z ->
   main maxAlloc Cos Sin Round Atoi fuel arg0 (a :: rest) = Ran (- 2 ^ 63) Panic)
  /\ ((64 <= size)%Z ->
      main maxAlloc Cos Sin Round Atoi fuel arg0 (a :: rest) = Ran 0 OutOfFuel).
Proof.
  intros E Hsize. unfold main. rewrite E.
  assert (Hge : (size <? 0)%Z = false) by (apply Z.ltb_ge; lia).
  rewrite Hge, Z.shiftl_1_l. split.
  - intros ->. reflexivity.
  - intros Hbig. rewrite wrap_int_pow2_big by lia.
    rewrite generate_zero, bind_Done. unfold Go.FFT. now rewrite fft_nil.
Qed.

End HarnessMore.

(** X6 at length 2, at length -1 and at length 2^45. *)
Lemma generateInputs_samples_two :
  (exists inputs,
     Harness.generateInputs maxAlloc_linux poly_cos poly_sin nearest_int 2 = Done inputs
     /\ Z.of_nat (length inputs) = 2%Z
     /\ forall i, i < Z.to_nat 2 ->
          inputs !! i = Some (go_sample poly_cos poly_sin nearest_int (Z.to_nat 2) i))
  /\ Harness.generateInputs maxAlloc_linux poly_cos poly_sin nearest_int (-1) = Panic
  /\ Harness.generateInputs maxAlloc_linux poly_cos poly_sin nearest_int (2 ^ 45) = Panic.
Proof.
  split; [|split].
  - apply (generateInputs_samples maxAlloc_linux poly_cos poly_sin nearest_int 2);
      [lia | reflexivity | vm_compute; discriminate].
  - apply (generateInputs_samples maxAlloc_linux poly_cos poly_sin nearest_int (-1)).
    left. lia.
  - apply (generateInputs_samples maxAlloc_linux poly_cos poly_sin nearest_int (2 ^ 45)).
    right. right. reflexivity.
Defined.

(** X7 on the command line [fft 2]. *)
Lemma main_runs_two :
  decimal "2" = Some 2%Z /\ (0 <= 2 <= 59)%Z
  /\ (16 * 2 ^ 2 <= Z.of_N maxAlloc_linux)%Z /\ Z.to_nat 2 < 3
  /\ exists out,
       Harness.main maxAlloc_linux poly_cos poly_sin nearest_int decimal 3 "fft"
         ["2"%string]
         = Harness.Ran (2 ^ 2) (Done out)
       /\ Z.of_nat (length out) = (2 ^ 2)%Z.
Proof.
  split; [reflexivity|]. split; [lia|]. split; [vm_compute; discriminate|].
  split; [simpl; lia|].
  apply (main_runs maxAlloc_linux poly_cos poly_sin nearest_int decimal 3 "fft" "2" [] 2);
    [reflexivity | lia | vm_compute; discriminate | simpl; lia].
Defined.

(** X8 on the command lines [fft 63] and [fft 64]. *)
Lemma main_size_too_big_examples :
  decimal "63" = Some 63%Z /\ decimal "64" = Some 64%Z
  /\ Harness.main maxAlloc_linux poly_cos poly_sin nearest_int decimal 5 "fft"
       ["63"%string]
       = Harness.Ran (- 2 ^ 63) Panic
  /\ Harness.main maxAlloc_linux poly_cos poly_sin nearest_int decimal 5 "fft"
       ["64"%string]
       = Harness.Ran 0 OutOfFuel.
Proof.
  split; [reflexivity|]. split; [reflexivity|]. split.
  - apply (main_size_too_big maxAlloc_linux poly_cos poly_sin nearest_int decimal 5
             "fft" "63" [] 63); [reflexivity | lia | reflexivity].
  - apply (main_size_too_big maxAlloc_linux poly_cos poly_sin nearest_int decimal 5
             "fft" "64" [] 64); [reflexivity | lia | lia].
Defined.

(** ** The Swift transform *)

Lemma outcome_map_Done_inv {A B : Type} (f : A -> B) (c : outcome A) (b : B) :
  outcome_map f c = Done b -> exists a, c = Done a /\ b = f a.
Proof.
  destruct c as [a| |]; try discriminate. intros H. exists a. split; [done|].
  now inversion H.
Qed.

Section SwiftMore.

Variables cos sin : float -> float.

(** The Swift transform seen through [as_go] is the Go transform with the
    same cosine and sine. *)
Lemma swift_fft_as_go (fuel : nat) (arr : list Swift.Complex) :
  Go.FFT cos sin fuel (map as_go arr)
    = outcome_map (map as_go) (Swift.fft cos sin fuel arr).
Proof.
  unfold Go.FFT, Swift.fft. rewrite (fft_sim cos sin cos sin) by done.
  destruct (Swift._fft cos sin fuel arr) as [out| |]; port_step.
  rewrite length_map. unfold for_range.
  apply for_from_sim. intros j t. apply scale_step_sim.
Qed.

Lemma swift_fft_empty (fuel : nat) : Swift.fft cos sin fuel [] = OutOfFuel.
Proof.
  pose proof (swift_fft_as_go fuel []) as G.
  unfold Go.FFT in G. cbn [map] in G. rewrite fft_nil in G.
  now destruct (Swift.fft cos sin fuel []).
Qed.

(** X9: the Swift [fft] returns within a call depth [d] exactly on the
    arrays of at least one and fewer than 2^d elements; on the empty array
    it recurses without end. *)
Theorem swift_fft_returns_iff (fuel : nat) (arr : list Swift.Complex) :
  (exists out, Swift.fft cos sin fuel arr = Done out) <-> 1 <= length arr < 2 ^ fuel.
Proof.
  rewrite <- (length_map as_go arr). split.
  - intros (out & H). pose proof (swift_fft_as_go fuel arr) as G. rewrite H in G.
    apply FFT_Done_inv in G as (res & F & _). now apply fft_Done_bounds in F.
  - intros H. destruct (fft_total cos sin fuel (map as_go arr) H) as (res & F).
    pose proof (swift_fft_as_go fuel arr) as G.
    rewrite (FFT_scale _ _ _ _ _ F) in G. symmetry in G.
    apply outcome_map_Done_inv in G as (out & G & _). eauto.
Qed.

(** X10: when the Swift [fft] returns, the array has the count it had at
    the call, and no call traps on an index out of range. *)
Theorem swift_fft_count (fuel : nat) (arr out : list Swift.Complex) :
  Swift.fft cos sin fuel arr = Done out ->
  length out = length arr /\ forall fuel', Swift.fft cos sin fuel' arr <> Panic.
Proof.
  intros H. split.
  - pose proof (swift_fft_as_go fuel arr) as G. rewrite H in G.
    apply FFT_Done_inv in G as (res & F & E).
    apply fft_length in F.
    apply (f_equal length) in E. rewrite !length_map in E. rewrite length_map in F. lia.
  - intros fuel' P. pose proof (swift_fft_as_go fuel' arr) as G. rewrite P in G.
    unfold Go.FFT in G.
    destruct (Go.fft cos sin fuel' (map as_go arr)) as [res| |] eqn:F;
      [|now apply fft_no_panic in F|done].
    rewrite bind_Done in G. unfold for_range in G.
    now rewrite (scale_loop _ res []) in G.
Qed.

(** X11: the Swift [fft] leaves a single-element array as it is. *)
Theorem swift_fft_single (fuel : nat) (c : Swift.Complex) :
  Swift.fft cos sin (S fuel) [c] = Done [c].
Proof.
  unfold Swift.fft. cbn -[PrimFloat.div PrimFloat.sqrt float64].
  change (1 / sqrt (float64 1))%float with 1%float.
  destruct c as [re im]. unfold Swift.op_mul_scalar. cbn. now rewrite !mul_one_r.
Qed.

End SwiftMore.

(** X10 at the unit impulse of length 4. *)
Lemma swift_fft_count_impulse :
  Swift.fft poly_cos poly_sin 3 swift_impulse4 = Done swift_halves4
  /\ length swift_halves4 = length swift_impulse4
  /\ forall fuel', Swift.fft poly_cos poly_sin fuel' swift_impulse4 <> Panic.
Proof.
  split; [reflexivity|].
  apply (swift_fft_count poly_cos poly_sin 3 swift_impulse4 swift_halves4).
  reflexivity.
Defined.

(** ** The Swift script against the Go harness *)

Section ScriptMore.

Variable maxAlloc : N.
Variables cos sin rnd : float -> float.
Variable parse : string -> option Z.

Lemma generate_step_sim len j (res : list Swift.Complex) :
  Harness.generate_step cos sin rnd len j (map as_go res)
    = outcome_map (map as_go) (SwiftMain.generate_step cos sin rnd len j res).
Proof.
  unfold Harness.generate_step, SwiftMain.generate_step, outcome_map.
  cbv zeta. rewrite bind_Done, map_app. reflexivity.
Qed.

Lemma generate_sim (len : Z) :
  Harness.make_ok maxAlloc len = true ->
  Harness.generateInputs maxAlloc cos sin rnd len
    = outcome_map (map as_go) (SwiftMain.generateInputs cos sin rnd len).
Proof.
  intros Hok. unfold Harness.generateInputs, SwiftMain.generateInputs. rewrite Hok.
  apply make_ok_true in Hok.
  assert (E : (len <? 0)%Z = false) by (apply Z.ltb_ge; lia). rewrite E.
  unfold for_range. change (@nil Go.Complex) with (map as_go []).
  apply for_from_sim. intros j t. apply generate_step_sim.
Qed.

Lemma generate_sim_neg (len : Z) :
  (len < 0)%Z ->
  Harness.generateInputs maxAlloc cos sin rnd len = Panic
  /\ SwiftMain.generateInputs cos sin rnd len = Panic.
Proof.
  intros H. split.
  - apply generate_refused, make_ok_false. now left.
  - unfold SwiftMain.generateInputs. apply Z.ltb_lt in H. now rewrite H.
Qed.

Lemma smart_shl_nonneg (size : Z) :
  (0 <= size)%Z -> SwiftMain.smart_shl 1 size = Harness.wrap_int (2 ^ size).
Proof.
  intros H. unfold SwiftMain.smart_shl.
  assert (E : (size <? 0)%Z = false) by (apply Z.ltb_ge; lia). rewrite E.
  destruct (64 <=? size)%Z eqn:B.
  - apply Z.leb_le in B. now rewrite wrap_int_pow2_big.
  - now rewrite Z.shiftl_1_l.
Qed.

Lemma smart_shl_neg (size : Z) : (size < 0)%Z -> SwiftMain.smart_shl 1 size = 0%Z.
Proof.
  intros H. unfold SwiftMain.smart_shl.
  apply Z.ltb_lt in H as E. rewrite E.
  rewrite Z.shiftr_div_pow2 by lia. apply Z.div_small.
  split; [lia|]. apply (Z.pow_gt_1 2 (- size)); lia.
Qed.

(** X12: for every length that [make] grants on the Go side the two input
    generators build the same samples, given the same cosine, sine and
    rounding; and both stop on a negative length (the Go one in [make], the
    Swift one at the range [0..<len]). *)
Theorem generateInputs_agree (len : Z) :
  ((0 <= len)%Z -> (16 * len < 2 ^ 64)%Z -> (16 * len <= Z.of_N maxAlloc)%Z ->
   exists samples,
     SwiftMain.generateInputs cos sin rnd len = Done samples
     /\ Harness.generateInputs maxAlloc cos sin rnd len = Done (map as_go samples)
     /\ Z.of_nat (length samples) = len)
  /\ ((len < 0)%Z ->
      Harness.generateInputs maxAlloc cos sin rnd len = Panic
      /\ SwiftMain.generateInputs cos sin rnd len = Panic).
Proof.
  split; [|apply generate_sim_neg].
  intros H0 H1 H2.
  assert (Hok : Harness.make_ok maxAlloc len = true) by (apply make_ok_true; lia).
  pose proof (generate_sim len Hok) as G.
  rewrite (generate_range _ _ _ _ _ Hok) in G. symmetry in G.
  apply outcome_map_Done_inv in G as (samples & S & E).
  exists samples. split; [exact S|]. split.
  - rewrite (generate_range _ _ _ _ _ Hok). now f_equal.
  - apply (f_equal length) in E. rewrite !length_map, length_seq in E. lia.
Qed.

(** X13: the Swift script writes the usage line and exits with status 1
    when there is no size argument or [Int(_:)] rejects it; the line names the
    first argument, or [prog] when the argument list is empty. *)
Theorem swift_main_usage (fuel : nat) :
  SwiftMain.main cos sin rnd parse fuel []
    = SwiftMain.Exited 1 ("usage: prog <size>" ++ Harness.newline)
  /\ (forall arg0,
        SwiftMain.main cos sin rnd parse fuel [arg0]
          = SwiftMain.Exited 1 ("usage: " ++ arg0 ++ " <size>" ++ Harness.newline))
  /\ (forall arg0 a rest,
        parse a = None ->
        SwiftMain.main cos sin rnd parse fuel (arg0 :: a :: rest)
          = SwiftMain.Exited 1 ("usage: " ++ arg0 ++ " <size>" ++ Harness.newline)).
Proof.
  split; [reflexivity|]. split; [reflexivity|].
  intros arg0 a rest E. unfold SwiftMain.main. now rewrite E.
Qed.

(** X14: a negative size, which the Go harness rejects, is accepted by the
    Swift script: the shift gives length 0, the input is empty and [fft]
    never returns. *)
Theorem swift_main_negative (fuel : nat) (arg0 a : string) (rest : list string) (size : Z) :
  parse a = Some size -> (size < 0)%Z ->
  SwiftMain.main cos sin rnd parse fuel (arg0 :: a :: rest) = SwiftMain.Ran 0 OutOfFuel
  /\ Harness.main maxAlloc cos sin rnd parse fuel arg0 (a :: rest)
       = Harness.Exited 1
           ("invalid <size>; must be a non-negative integer" ++ Harness.newline).
Proof.
  intros E Hneg. split.
  - unfold SwiftMain.main. rewrite E, smart_shl_neg by done.
    change (SwiftMain.generateInputs cos sin rnd 0) with (Done (@nil Swift.Complex)).
    now rewrite bind_Done, swift_fft_empty.
  - unfold Harness.main. rewrite E. apply Z.ltb_lt in Hneg. now rewrite Hneg.
Qed.

(** X15: on a size from 0 to 59 whose 16 * 2^size bytes [make] grants, and
    on every size from 63 on (where the shift overflows), the two programs
    compute the same length, generate the same samples and end alike, with
    the same samples in the buffer when the transform returns. *)
Theorem mains_agree (fuel : nat) (arg0 a : string) (rest : list string) (size : Z) :
  parse a = Some size -> (0 <= size)%Z ->
  ((size <= 59 /\ 16 * 2 ^ size <= Z.of_N maxAlloc) \/ 63 <= size)%Z ->
  exists transform,
    SwiftMain.main cos sin rnd parse fuel (arg0 :: a :: rest)
      = SwiftMain.Ran (Harness.wrap_int (2 ^ size)) transform
    /\ Harness.main maxAlloc cos sin rnd parse fuel arg0 (a :: rest)
         = Harness.Ran (Harness.wrap_int (2 ^ size)) (outcome_map (map as_go) transform).
Proof.
  intros E Hpos Hdom. unfold SwiftMain.main, Harness.main. rewrite E.
  assert (Hge : (size <? 0)%Z = false) by (apply Z.ltb_ge; lia).
  rewrite Hge, Z.shiftl_1_l, smart_shl_nonneg by done.
  eexists. split; [reflexivity|]. f_equal. cbv zeta.
  assert (Hcases : Harness.make_ok maxAlloc (Harness.wrap_int (2 ^ size)) = true
                   \/ (Harness.wrap_int (2 ^ size) < 0)%Z).
  { destruct Hdom as [[H59 Hmax]|H63].
    - left.
      assert (H60 : (2 ^ size <= 2 ^ 59)%Z) by (apply Z.pow_le_mono_r; lia).
      pose proof (pow2_small size) as Hp.
      rewrite wrap_int_small by lia. apply make_ok_true. lia.
    - destruct (decide (size = 63%Z)) as [->|Hne].
      + right. reflexivity.
      + left. rewrite wrap_int_pow2_big by lia. apply make_ok_true.
        pose proof (N2Z.is_nonneg maxAlloc). lia. }
  destruct Hcases as [Hok|Hneg].
  - rewrite (generate_sim _ Hok).
    destruct (SwiftMain.generateInputs cos sin rnd _) as [signals| |]; port_step.
    apply swift_fft_as_go.
  - destruct (generate_sim_neg _ Hneg) as [-> ->]. reflexivity.
Qed.

End ScriptMore.

(** X12 at length 2 and at length -1. *)
Lemma generateInputs_agree_examples :
  (exists samples,
     SwiftMain.generateInputs poly_cos poly_sin nearest_int 2 = Done samples
     /\ Harness.generateInputs maxAlloc_linux poly_cos poly_sin nearest_int 2
          = Done (map as_go samples)
     /\ Z.of_nat (length samples) = 2%Z)
  /\ Harness.generateInputs maxAlloc_linux poly_cos poly_sin nearest_int (-1) = Panic
  /\ SwiftMain.generateInputs poly_cos poly_sin nearest_int (-1) = Panic.
Proof.
  split.
  - apply (generateInputs_agree maxAlloc_linux poly_cos poly_sin nearest_int 2);
      [lia | reflexivity | vm_compute; discriminate].
  - apply (generateInputs_agree maxAlloc_linux poly_cos poly_sin nearest_int (-1)). lia.
Defined.

(** X13 with the decimal reader. *)
Lemma swift_main_usage_examples :
  SwiftMain.main poly_cos poly_sin nearest_int decimal 3 []
    = SwiftMain.Exited 1 ("usage: prog <size>" ++ Harness.newline)
  /\ SwiftMain.main poly_cos poly_sin nearest_int decimal 3 ["fft"%string]
       = SwiftMain.Exited 1 ("usage: fft <size>" ++ Harness.newline)
  /\ SwiftMain.main poly_cos poly_sin nearest_int decimal 3 ["fft"%string; "four"%string]
       = SwiftMain.Exited 1 ("usage: fft <size>" ++ Harness.newline).
Proof.
  destruct (swift_main_usage poly_cos poly_sin nearest_int decimal 3) as (H0 & H1 & H2).
  split; [exact H0|]. split; [apply H1|]. apply H2. reflexivity.
Defined.

(** X14 on the command line [fft -1]. *)
Lemma swift_main_negative_one :
  decimal "-1" = Some (-1)%Z /\ (-1 < 0)%Z
  /\ SwiftMain.main poly_cos poly_sin nearest_int decimal 3 ["fft"%string; "-1"%string]
       = SwiftMain.Ran 0 OutOfFuel
  /\ Harness.main maxAlloc_linux poly_cos poly_sin nearest_int decimal 3 "fft"
       ["-1"%string]
       = Harness.Exited 1
           ("invalid <size>; must be a non-negative integer" ++ Harness.newline).
Proof.
  split; [reflexivity|]. split; [lia|].
  apply (swift_main_negative maxAlloc_linux poly_cos poly_sin nearest_int decimal 3
           "fft" "-1" [] (-1)); [reflexivity | lia].
Defined.

(** X15 on the command lines [fft 2] and [fft 63]. *)
Lemma mains_agree_examples :
  decimal "2" = Some 2%Z /\ decimal "63" = Some 63%Z
  /\ (exists transform,
        SwiftMain.main poly_cos poly_sin nearest_int decimal 3 ["fft"%string; "2"%string]
          = SwiftMain.Ran (Harness.wrap_int (2 ^ 2)) transform
        /\ Harness.main maxAlloc_linux poly_cos poly_sin nearest_int decimal 3 "fft"
             ["2"%string]
             = Harness.Ran (Harness.wrap_int (2 ^ 2)) (outcome_map (map as_go) transform))
  /\ (exists transform,
        SwiftMain.main poly_cos poly_sin nearest_int decimal 3 ["fft"%string; "63"%string]
          = SwiftMain.Ran (Harness.wrap_int (2 ^ 63)) transform
        /\ Harness.main maxAlloc_linux poly_cos poly_sin nearest_int decimal 3 "fft"
             ["63"%string]
             = Harness.Ran (Harness.wrap_int (2 ^ 63)) (outcome_map (map as_go) transform)).
Proof.
  split; [reflexivity|]. split; [reflexivity|]. split.
  - apply (mains_agree maxAlloc_linux poly_cos poly_sin nearest_int decimal 3
             "fft" "2" [] 2); [reflexivity | lia |].
    left. split; [lia | vm_compute; discriminate].
  - apply (mains_agree maxAlloc_linux poly_cos poly_sin nearest_int decimal 3
             "fft" "63" [] 63); [reflexivity | lia | right; lia].
Defined.
